(** * Location tracker backend: position store, trail store, broadcaster, janitor

    A shallow embedding of [src/server.js].  The Express routes and the
    Socket.IO event handlers become functions in a small state-and-output
    monad over a [World] that holds the two MongoDB collections, the set of
    connected sockets, the Socket.IO rooms and the system clock.

    Conventions of the embedding:
    - a JavaScript [Number] that arrives in a JSON body is a finite double;
      the handlers only compare and store such numbers, so they are modelled
      as rationals [Q] (every finite double is one, and the order agrees);
    - a [Date] is its millisecond time value, a [Z];
    - request fields are taken at the types the Mongoose schemas declare:
      [trackId] is a string, [lat], [lng], [speed] and [accuracy] are
      numbers, and a key that is absent from the body is [None].  A JSON
      [null], a number in place of the id or a string in place of a number
      is outside the model; the statements below speak of requests of
      these types only;
    - every [new Date()] / [Date.now()] is one read of the clock: the i-th
      read of a run returns [clock w i];
    - store calls are total: the [catch] branches (status 500) that answer a
      failing database are not modelled, nor is [console.log]. *)

From Stdlib Require Import ZArith QArith Lia Lqa.
From stdpp Require Import base option list gmap sets strings.
From stdpp Require Import sorting.

Local Open Scope string_scope.
Local Open Scope list_scope.

(** ** Mongoose schemas *)

(** [locationSchema] *)
Module Location.
Record t := mk {
  trackId : string;
  lat : Q;
  lng : Q;
  speed : Q;
  accuracy : Q;
  timestamp : Z;
  isActive : bool
}.
End Location.

(** One element of [pathHistorySchema.points] *)
Module Point.
Record t := mk {
  lat : Q;
  lng : Q;
  timestamp : Z
}.
End Point.

(** [pathHistorySchema] *)
Module PathHistory.
Record t := mk {
  trackId : string;
  points : list Point.t;
  lastUpdated : Z
}.
End PathHistory.

(** The object destructured by both update handlers:
    [const { trackId, lat, lng, speed, accuracy } = req.body] (or [= data]),
    for a body whose [trackId] is a string or absent and whose other fields
    are numbers or absent. *)
Module UpdateData.
Record t := mk {
  trackId : option string;
  lat : option Q;
  lng : option Q;
  speed : option Q;
  accuracy : option Q
}.
End UpdateData.

(** ** Socket.IO output *)

Definition socket_id := nat.

Inductive Payload :=
  | PLocation (trackId : string) (lat lng speed accuracy : Q) (timestamp : Z)
  | PAck (trackId : string) (success : bool)
  | PError (message : string)
  | PPong (timestamp : Z).

(** Where an [emit] was aimed: [io.emit], [io.to(room).emit], [socket.emit]. *)
Inductive Target :=
  | ToAll
  | ToRoom (room : string)
  | ToSocket (id : socket_id).

(** One call of [emit].  [recipients] is the set of sockets the call
    resolved to when it was made; each of them receives the event once. *)
Record Emission := mkEmission {
  target : Target;
  recipients : gset socket_id;
  event : string;
  payload : Payload
}.

(** ** HTTP output *)

Inductive Body :=
  | BError (error : string)
  | BUpdated (location : Location.t)
  | BLocation (location : Location.t) (isRecent : bool)
  | BPoints (points : list Point.t)
  | BDeactivated (message : string)
  | BCleanup (deletedLocations deletedPaths : nat).

Record Response := mkResponse {
  status : nat;
  body : Body
}.

(** ** Server state *)

Record World := mkWorld {
  locations : gmap string Location.t;
  pathHistories : gmap string PathHistory.t;
  sockets : gset socket_id;
  rooms : gmap string (gset socket_id);
  clock : nat -> Z;
  reads : nat
}.

Definition init (clk : nat -> Z) : World :=
  mkWorld ∅ ∅ ∅ ∅ clk 0.

Definition with_locations (f : gmap string Location.t -> gmap string Location.t)
    (w : World) : World :=
  mkWorld (f (locations w)) (pathHistories w) (sockets w) (rooms w) (clock w) (reads w).

Definition with_pathHistories
    (f : gmap string PathHistory.t -> gmap string PathHistory.t) (w : World) : World :=
  mkWorld (locations w) (f (pathHistories w)) (sockets w) (rooms w) (clock w) (reads w).

Definition with_sockets (f : gset socket_id -> gset socket_id) (w : World) : World :=
  mkWorld (locations w) (pathHistories w) (f (sockets w)) (rooms w) (clock w) (reads w).

Definition with_rooms (f : gmap string (gset socket_id) -> gmap string (gset socket_id))
    (w : World) : World :=
  mkWorld (locations w) (pathHistories w) (sockets w) (f (rooms w)) (clock w) (reads w).

Definition tick (w : World) : World :=
  mkWorld (locations w) (pathHistories w) (sockets w) (rooms w) (clock w) (S (reads w)).

(** ** The handler monad: state plus emitted events *)

Definition M (A : Type) : Type := World -> A * World * list Emission.

Definition ret {A} (a : A) : M A := fun w => (a, w, []).

Definition bind {A B} (m : M A) (k : A -> M B) : M B :=
  fun w =>
    let r1 := m w in
    let r2 := k (r1.1.1) (r1.1.2) in
    (r2.1.1, r2.1.2, r1.2 ++ r2.2).

Notation "x <- m ;; k" := (bind m (fun x => k))
  (at level 100, m at next level, right associativity).
Notation "m ;;; k" := (bind m (fun _ => k))
  (at level 100, right associativity).

Definition value_of {A} (r : A * World * list Emission) : A := r.1.1.
Definition world_of {A} (r : A * World * list Emission) : World := r.1.2.
Definition emitted {A} (r : A * World * list Emission) : list Emission := r.2.

(** [new Date()] and [Date.now()] *)
Definition Date_now : M Z :=
  fun w => (clock w (reads w), tick w, []).

(** ** JavaScript operators used by the handlers *)

(** [!trackId] is false exactly for a non-empty string. *)
Definition truthy (s : option string) : option string :=
  match s with
  | Some s => if String.eqb s "" then None else Some s
  | None => None
  end.

(** [x || 0] on an optional number: [undefined] and [0] give [0]. *)
Definition or_zero (x : option Q) : Q :=
  match x with
  | Some q => if Qeq_bool q 0 then 0%Q else q
  | None => 0%Q
  end.

Definition Qltb (x y : Q) : bool := negb (Qle_bool y x).

(** [lat < -90 || lat > 90 || lng < -180 || lng > 180] *)
Definition invalid_coordinates (lat lng : Q) : bool :=
  Qltb lat (-90) || Qltb 90 lat || Qltb lng (-180) || Qltb 180 lng.

(** Template literals [`track:${trackId}`] and [`location:${trackId}`]. *)
Definition room_of (trackId : string) : string := "track:" +:+ trackId.
Definition legacy_event (trackId : string) : string := "location:" +:+ trackId.

(** MongoDB [$slice] after a [$push]: a negative count keeps that many
    elements from the end, a non-negative one from the start. *)
Definition slice (n : Z) (l : list Point.t) : list Point.t :=
  if (n <? 0)%Z then drop (length l - Z.to_nat (- n)) l
  else take (Z.to_nat n) l.

(** [new Date(value)]: a time value beyond 8.64e15 ms gives an invalid date. *)
Definition Date_of (value : Z) : option Z :=
  if (Z.abs value <=? 8640000000000000)%Z then Some value else None.

(** [date > other] on a stored date: false when [other] is invalid. *)
Definition Date_gt (date : Z) (other : option Z) : bool :=
  match other with
  | Some o => (o <? date)%Z
  | None => false
  end.

(** ** The two Mongoose models *)

Definition Location_findOne (trackId : string) : M (option Location.t) :=
  fun w => (locations w !! trackId, w, []).

Definition PathHistory_findOne (trackId : string) : M (option PathHistory.t) :=
  fun w => (pathHistories w !! trackId, w, []).

(** [Location.findOneAndUpdate({ trackId }, { lat, lng, speed, accuracy,
    timestamp, isActive }, { upsert: true, new: true })]: every field of the
    schema is assigned, so the stored document is [doc] whether or not one
    existed; the updated document is returned. *)
Definition Location_findOneAndUpdate_upsert (doc : Location.t) : M Location.t :=
  fun w => (doc, with_locations (insert (Location.trackId doc) doc) w, []).

Definition set_isActive (b : bool) (doc : Location.t) : Location.t :=
  Location.mk (Location.trackId doc) (Location.lat doc) (Location.lng doc)
    (Location.speed doc) (Location.accuracy doc) (Location.timestamp doc) b.

(** [Location.findOneAndUpdate({ trackId }, { isActive }, { new: true })]:
    no upsert, [null] when no document matches. *)
Definition Location_findOneAndUpdate_isActive (trackId : string) (isActive : bool)
    : M (option Location.t) :=
  fun w =>
    match locations w !! trackId with
    | Some doc =>
        let doc' := set_isActive isActive doc in
        (Some doc', with_locations (insert trackId doc') w, [])
    | None => (None, w, [])
    end.

Definition points_of (o : option PathHistory.t) : list Point.t :=
  match o with
  | Some doc => PathHistory.points doc
  | None => []
  end.

(** [PathHistory.findOneAndUpdate({ trackId },
      { $push: { points: { $each, $slice } }, lastUpdated }, { upsert: true })] *)
Definition PathHistory_findOneAndUpdate_push (trackId : string)
    (each : list Point.t) (slice_count : Z) (lastUpdated : Z) : M unit :=
  fun w =>
    let old := points_of (pathHistories w !! trackId) in
    let doc := PathHistory.mk trackId (slice slice_count (old ++ each)) lastUpdated in
    (tt, with_pathHistories (insert trackId doc) w, []).

(** The query [{ timestamp: { $lt: cutoff } }] on a Location document. *)
Definition stale_location (cutoff : Z) (kv : string * Location.t) : Prop :=
  (Location.timestamp kv.2 < cutoff)%Z.

(** The query [{ lastUpdated: { $lt: cutoff } }] on a PathHistory document. *)
Definition stale_path (cutoff : Z) (kv : string * PathHistory.t) : Prop :=
  (PathHistory.lastUpdated kv.2 < cutoff)%Z.

#[global] Instance stale_location_dec cutoff kv : Decision (stale_location cutoff kv).
Proof. unfold stale_location. apply _. Defined.

#[global] Instance stale_path_dec cutoff kv : Decision (stale_path cutoff kv).
Proof. unfold stale_path. apply _. Defined.

(** [Location.deleteMany({ timestamp: { $lt: cutoff } })], giving [deletedCount]. *)
Definition Location_deleteMany_timestamp_lt (cutoff : Z) : M nat :=
  fun w =>
    (size (filter (stale_location cutoff) (locations w)),
     with_locations (filter (fun kv => ~ stale_location cutoff kv)) w,
     []).

(** [PathHistory.deleteMany({ lastUpdated: { $lt: cutoff } })] *)
Definition PathHistory_deleteMany_lastUpdated_lt (cutoff : Z) : M nat :=
  fun w =>
    (size (filter (stale_path cutoff) (pathHistories w)),
     with_pathHistories (filter (fun kv => ~ stale_path cutoff kv)) w,
     []).

(** [pathHistorySchema.pre('save', ...)]: the hook that drops points older
    than 24 hours.  Mongoose runs it from [document.save()] only; a
    [findOneAndUpdate] does not trigger it, and no handler of [server.js]
    calls [save]. *)
Definition pathHistory_pre_save (this : PathHistory.t) : M PathHistory.t :=
  now <- Date_now ;;
  let twentyFourHoursAgo := (now - 24 * 60 * 60 * 1000)%Z in
  ret (PathHistory.mk (PathHistory.trackId this)
         (List.filter (fun point => (twentyFourHoursAgo <? Point.timestamp point)%Z)
            (PathHistory.points this))
         (PathHistory.lastUpdated this)).

(** ** Socket.IO primitives *)

Definition members (rs : gmap string (gset socket_id)) (room : string) : gset socket_id :=
  default ∅ (rs !! room).

(** [io.emit(event, payload)]: every connected socket. *)
Definition io_emit (ev : string) (p : Payload) : M unit :=
  fun w => (tt, w, [mkEmission ToAll (sockets w) ev p]).

(** [io.to(room).emit(event, payload)]: the connected sockets of the room. *)
Definition io_to_emit (room : string) (ev : string) (p : Payload) : M unit :=
  fun w => (tt, w, [mkEmission (ToRoom room) (members (rooms w) room ∩ sockets w) ev p]).

(** [socket.emit(event, payload)]: this socket only. *)
Definition socket_emit (socket : socket_id) (ev : string) (p : Payload) : M unit :=
  fun w => (tt, w, [mkEmission (ToSocket socket) {[socket]} ev p]).

(** [socket.join(room)]: a room is a set of socket ids. *)
Definition socket_join (socket : socket_id) (room : string) : M unit :=
  fun w =>
    (tt, with_rooms (fun rs => <[room := {[socket]} ∪ members rs room]> rs) w, []).

Definition without (socket : socket_id) (s : gset socket_id) : option (gset socket_id) :=
  let s' := s ∖ {[socket]} in
  if decide (s' = ∅) then None else Some s'.

(** [socket.leave(room)]: a room that becomes empty is removed. *)
Definition socket_leave (socket : socket_id) (room : string) : M unit :=
  fun w =>
    (tt,
     with_rooms (fun rs =>
       match rs !! room with
       | Some s =>
           match without socket s with
           | Some s' => <[room := s']> rs
           | None => delete room rs
           end
       | None => rs
       end) w,
     []).

(** ** REST routes *)

(** [app.post('/api/location/update', ...)] *)
Definition post_location_update (req_body : UpdateData.t) : M Response :=
  match truthy (UpdateData.trackId req_body),
        UpdateData.lat req_body, UpdateData.lng req_body with
  | Some trackId, Some lat, Some lng =>
      if invalid_coordinates lat lng then
        ret (mkResponse 400 (BError "Invalid coordinates"))
      else
        let speed := UpdateData.speed req_body in
        let accuracy := UpdateData.accuracy req_body in
        t_location <- Date_now ;;
        location <- Location_findOneAndUpdate_upsert
          (Location.mk trackId lat lng (or_zero speed) (or_zero accuracy)
             t_location true) ;;
        t_point <- Date_now ;;
        t_lastUpdated <- Date_now ;;
        PathHistory_findOneAndUpdate_push trackId
          [Point.mk lat lng t_point] (-1000) t_lastUpdated ;;;
        t_global <- Date_now ;;
        io_emit "location:updated"
          (PLocation trackId lat lng (or_zero speed) (or_zero accuracy) t_global) ;;;
        t_legacy <- Date_now ;;
        io_emit (legacy_event trackId)
          (PLocation trackId lat lng (or_zero speed) (or_zero accuracy) t_legacy) ;;;
        ret (mkResponse 200 (BUpdated location))
  | _, _, _ =>
      ret (mkResponse 400 (BError "Missing required fields: trackId, lat, lng"))
  end.

(** [app.get('/api/location/:trackId', ...)] *)
Definition get_location (trackId : string) : M Response :=
  if String.eqb trackId "" then
    ret (mkResponse 400 (BError "Track ID is required"))
  else
    location <- Location_findOne trackId ;;
    match location with
    | None => ret (mkResponse 404 (BError "Track ID not found"))
    | Some location =>
        now <- Date_now ;;
        let thirtySecondsAgo := (now - 30000)%Z in
        let isRecent := (thirtySecondsAgo <? Location.timestamp location)%Z in
        ret (mkResponse 200 (BLocation location isRecent))
    end.

(** What [parseInt(hours)] makes of the [hours] query parameter. *)
Inductive HoursQuery :=
  | HoursAbsent
  | HoursInt (n : Z)
  | HoursNaN.

Definition hoursNum_of (hours : HoursQuery) : option Z :=
  match hours with
  | HoursAbsent => Some 2%Z
  | HoursInt n => Some n
  | HoursNaN => None
  end.

(** [app.get('/api/path/:trackId', ...)] *)
Definition get_path (trackId : string) (hours : HoursQuery) : M Response :=
  if String.eqb trackId "" then
    ret (mkResponse 400 (BError "Track ID is required"))
  else
    pathHistory <- PathHistory_findOne trackId ;;
    match pathHistory with
    | None => ret (mkResponse 200 (BPoints []))
    | Some pathHistory =>
        now <- Date_now ;;
        let timeAgo :=
          match hoursNum_of hours with
          | Some hoursNum => Date_of (now - hoursNum * 60 * 60 * 1000)%Z
          | None => None
          end in
        let recentPoints :=
          List.filter (fun point => Date_gt (Point.timestamp point) timeAgo)
            (PathHistory.points pathHistory) in
        ret (mkResponse 200 (BPoints recentPoints))
    end.

(** [app.post('/api/location/deactivate/:trackId', ...)] *)
Definition post_deactivate (trackId : string) : M Response :=
  if String.eqb trackId "" then
    ret (mkResponse 400 (BError "Track ID is required"))
  else
    result <- Location_findOneAndUpdate_isActive trackId false ;;
    match result with
    | None => ret (mkResponse 404 (BError "Track ID not found"))
    | Some _ => ret (mkResponse 200 (BDeactivated "Location sharing deactivated"))
    end.

(** [app.post('/api/cleanup', ...)] *)
Definition post_cleanup : M Response :=
  now <- Date_now ;;
  let twentyFourHoursAgo := (now - 24 * 60 * 60 * 1000)%Z in
  deletedLocations <- Location_deleteMany_timestamp_lt twentyFourHoursAgo ;;
  deletedPaths <- PathHistory_deleteMany_lastUpdated_lt twentyFourHoursAgo ;;
  ret (mkResponse 200 (BCleanup deletedLocations deletedPaths)).

(** The hourly [setInterval] job.  Its only output is a console line. *)
Definition cleanup_job : M unit :=
  now <- Date_now ;;
  let twentyFourHoursAgo := (now - 24 * 60 * 60 * 1000)%Z in
  deletedLocations <- Location_deleteMany_timestamp_lt twentyFourHoursAgo ;;
  deletedPaths <- PathHistory_deleteMany_lastUpdated_lt twentyFourHoursAgo ;;
  ret tt.

(** ** Socket.IO events *)

(** [socket.on('track:subscribe', ...)] *)
Definition on_track_subscribe (socket : socket_id) (trackId : string) : M unit :=
  socket_join socket (room_of trackId) ;;;
  socket_emit socket "track:subscribed" (PAck trackId true).

(** [socket.on('track:unsubscribe', ...)] *)
Definition on_track_unsubscribe (socket : socket_id) (trackId : string) : M unit :=
  socket_leave socket (room_of trackId) ;;;
  socket_emit socket "track:unsubscribed" (PAck trackId true).

(** [socket.on('location:update', ...)] *)
Definition on_location_update (socket : socket_id) (data : UpdateData.t) : M unit :=
  match truthy (UpdateData.trackId data),
        UpdateData.lat data, UpdateData.lng data with
  | Some trackId, Some lat, Some lng =>
      if invalid_coordinates lat lng then
        socket_emit socket "error" (PError "Invalid coordinates")
      else
        let speed := UpdateData.speed data in
        let accuracy := UpdateData.accuracy data in
        t_location <- Date_now ;;
        location <- Location_findOneAndUpdate_upsert
          (Location.mk trackId lat lng (or_zero speed) (or_zero accuracy)
             t_location true) ;;
        t_point <- Date_now ;;
        t_lastUpdated <- Date_now ;;
        PathHistory_findOneAndUpdate_push trackId
          [Point.mk lat lng t_point] (-1000) t_lastUpdated ;;;
        t_update <- Date_now ;;
        let updateData :=
          PLocation trackId lat lng (or_zero speed) (or_zero accuracy) t_update in
        io_emit "location:updated" updateData ;;;
        io_to_emit (room_of trackId) "location:updated" updateData ;;;
        io_emit (legacy_event trackId) updateData
  | _, _, _ =>
      socket_emit socket "error" (PError "Missing required fields")
  end.

(** [socket.on('ping', ...)] *)
Definition on_ping (socket : socket_id) : M unit :=
  t <- Date_now ;;
  socket_emit socket "pong" (PPong t).

(** [io.on('connection', ...)]: the socket joins the namespace. *)
Definition on_connection (socket : socket_id) : M unit :=
  fun w => (tt, with_sockets (fun s => {[socket]} ∪ s) w, []).

(** Disconnection: Socket.IO takes the socket out of the namespace and of
    every room; the handler of [server.js] itself only logs. *)
Definition on_disconnect (socket : socket_id) : M unit :=
  fun w =>
    (tt, with_sockets (fun s => s ∖ {[socket]}) (with_rooms (omap (without socket)) w), []).

(** ** Entry points and runs *)

(** The two transports of the update pipeline. *)
Inductive Entry :=
  | ViaRest
  | ViaSocket (socket : socket_id).

Definition submitUpdate (e : Entry) (d : UpdateData.t) : M unit :=
  match e with
  | ViaRest => _ <- post_location_update d ;; ret tt
  | ViaSocket socket => on_location_update socket d
  end.

(** The validation both handlers write out: required fields, then ranges. *)
Definition accepts (d : UpdateData.t) : bool :=
  match truthy (UpdateData.trackId d), UpdateData.lat d, UpdateData.lng d with
  | Some _, Some lat, Some lng => negb (invalid_coordinates lat lng)
  | _, _, _ => false
  end.

Definition accepts_for (trackId : string) (d : UpdateData.t) : bool :=
  accepts d && bool_decide (UpdateData.trackId d = Some trackId).

(** Everything that can happen to the server. *)
Inductive step (w : World) : World -> Prop :=
  | step_rest_update d : step w (world_of (post_location_update d w))
  | step_get_location t : step w (world_of (get_location t w))
  | step_get_path t h : step w (world_of (get_path t h w))
  | step_deactivate t : step w (world_of (post_deactivate t w))
  | step_cleanup : step w (world_of (post_cleanup w))
  | step_cleanup_job : step w (world_of (cleanup_job w))
  | step_connection c : step w (world_of (on_connection c w))
  | step_disconnect c : c ∈ sockets w -> step w (world_of (on_disconnect c w))
  | step_subscribe c t : c ∈ sockets w -> step w (world_of (on_track_subscribe c t w))
  | step_unsubscribe c t : c ∈ sockets w -> step w (world_of (on_track_unsubscribe c t w))
  | step_socket_update c d : c ∈ sockets w -> step w (world_of (on_location_update c d w))
  | step_ping c : c ∈ sockets w -> step w (world_of (on_ping c w)).

Definition reachable (w : World) : Prop :=
  exists clk, rtc step (init clk) w.

(** What one socket gets out of a list of emissions. *)
Definition deliveries_to (c : socket_id) (es : list Emission) : list Emission :=
  List.filter (fun e => bool_decide (c ∈ recipients e)) es.

Definition named (ev : string) (es : list Emission) : list Emission :=
  List.filter (fun e => String.eqb (event e) ev) es.

(** Number of events called [ev] that socket [c] receives. *)
Definition received (c : socket_id) (ev : string) (es : list Emission) : nat :=
  length (named ev (deliveries_to c es)).

Definition is_room_target (e : Emission) : bool :=
  match target e with
  | ToRoom _ => true
  | _ => false
  end.

(** The points of a track's trail, empty when it has no Trail Record. *)
Definition trail (w : World) (trackId : string) : list Point.t :=
  points_of (pathHistories w !! trackId).

(** ** Notions used in the statements *)

Definition stored_location (w : World) (t : string) (la ln : Q) (d : UpdateData.t)
    : Location.t :=
  Location.mk t la ln (or_zero (UpdateData.speed d)) (or_zero (UpdateData.accuracy d))
    (clock w (reads w)) true.

Definition stored_trail (w : World) (t : string) (la ln : Q) : PathHistory.t :=
  PathHistory.mk t
    (slice (-1000) (trail w t ++ [Point.mk la ln (clock w (S (reads w)))]))
    (clock w (S (S (reads w)))).

Definition update_payload (w : World) (t : string) (la ln : Q) (d : UpdateData.t)
    (n : nat) : Payload :=
  PLocation t la ln (or_zero (UpdateData.speed d)) (or_zero (UpdateData.accuracy d))
    (clock w (n + reads w)).

Fixpoint submit_all (us : list (Entry * UpdateData.t)) : M unit :=
  match us with
  | [] => ret tt
  | (e, d) :: us' => submitUpdate e d ;;; submit_all us'
  end.

(** The points a run of submissions appends, in arrival order: one per
    accepted update, stamped with the clock read made for it. *)
Fixpoint arrivals (us : list (Entry * UpdateData.t)) (w : World) : list Point.t :=
  match us with
  | [] => []
  | (e, d) :: us' =>
      match accepts d, UpdateData.lat d, UpdateData.lng d with
      | true, Some la, Some ln => [Point.mk la ln (clock w (S (reads w)))]
      | _, _, _ => []
      end ++ arrivals us' (world_of (submitUpdate e d w))
  end.

(** The start of the window of [GET /api/path/:trackId], when it is a date. *)
Definition timeAgo (w : World) (hours : HoursQuery) : option Z :=
  match hoursNum_of hours with
  | Some hoursNum => Date_of (clock w (reads w) - hoursNum * 60 * 60 * 1000)%Z
  | None => None
  end.

(** A clock that advances one second per read. *)
Definition clock_seconds (n : nat) : Z := (1000 * Z.of_nat n)%Z.

Definition report (trackId : string) (lat lng : Q) : UpdateData.t :=
  UpdateData.mk (Some trackId) (Some lat) (Some lng) None None.

(** The scenario of the specification: TRK-ABC at 37.7, -122.4. *)
Definition report_abc : UpdateData.t := report "TRK-ABC" (377 # 10) (- (1224 # 10)).

Definition burst_1500 : list (Entry * UpdateData.t) := repeat (ViaRest, report_abc) 1500.

Definition absent_or_nonnegative (x : option Q) : Prop :=
  match x with
  | Some s => (0 <= s)%Q
  | None => True
  end.

Definition report_negative_speed : UpdateData.t :=
  UpdateData.mk (Some "TRK-ABC") (Some (377 # 10)) (Some (- (1224 # 10)))
    (Some (- (5 # 1))) None.

Definition outside_range (lat lng : Q) : Prop :=
  (lat < -90 \/ 90 < lat \/ lng < -180 \/ 180 < lng)%Q.

Definition report_lat_95_no_id : UpdateData.t :=
  UpdateData.mk None (Some (95 # 1)) (Some (0 # 1)) None None.

Definition report_lat_95 : UpdateData.t := report "TRK-ABC" (95 # 1) (0 # 1).

Definition cutoff (w : World) : Z := (clock w (reads w) - 24 * 60 * 60 * 1000)%Z.

(** Sockets 1 and 2 are connected and socket 1 has subscribed to track X. *)
Definition world_subscribed : World :=
  world_of (on_track_subscribe 1 "X"
    (world_of (on_connection 2 (world_of (on_connection 1 (init clock_seconds)))))).

Definition report_x : UpdateData.t := report "X" (10 # 1) (20 # 1).

(** Where an emission was aimed and under which event name. *)
Definition shape (e : Emission) : Target * string :=
  (target e, event e).

(** A clock whose first five reads fall in the first milliseconds and whose
    later reads come 25 hours after. *)
Definition clock_next_day (n : nat) : Z :=
  if (n <? 5)%nat then Z.of_nat n else (90000000 + Z.of_nat n)%Z.

Definition world_next_day : World :=
  world_of (submit_all [(ViaRest, report_abc); (ViaRest, report_abc)]
              (init clock_next_day)).

(** ** Routes outside the update pipeline *)

(** [app.post('/api/track/generate', ...)].  [draws] are the successive
    values of [Math.random().toString(36).substr(2, 9).toUpperCase()]; the
    result is the [trackId] of the response, or [None] while the loop has
    not ended after these draws. *)
Fixpoint post_track_generate (draws : list string) : M (option string) :=
  match draws with
  | [] => ret None
  | draw :: draws' =>
      let trackId := "TRK-" +:+ draw in
      exists_ <- Location_findOne trackId ;;
      match exists_ with
      | Some _ => post_track_generate draws'
      | None => ret (Some trackId)
      end
  end.

(** The body of the answer of [GET /api/stats]. *)
Module Stats.
Record t := mk {
  totalLocations : Z;
  activeLocations : Z;
  inactiveLocations : Z;
  totalPaths : Z;
  timestamp : Z
}.
End Stats.

(** The query [{ isActive: true }] on a Location document. *)
Definition active_location (kv : string * Location.t) : Prop :=
  Location.isActive kv.2 = true.

#[global] Instance active_location_dec kv : Decision (active_location kv).
Proof. unfold active_location. apply _. Defined.

(** [Location.countDocuments()] *)
Definition Location_countDocuments : M Z :=
  fun w => (Z.of_nat (size (locations w)), w, []).

(** [Location.countDocuments({ isActive: true })] *)
Definition Location_countDocuments_isActive : M Z :=
  fun w => (Z.of_nat (size (filter active_location (locations w))), w, []).

(** [PathHistory.countDocuments()] *)
Definition PathHistory_countDocuments : M Z :=
  fun w => (Z.of_nat (size (pathHistories w)), w, []).

(** [app.get('/api/stats', ...)] *)
Definition get_stats : M Stats.t :=
  totalLocations <- Location_countDocuments ;;
  activeLocations <- Location_countDocuments_isActive ;;
  totalPaths <- PathHistory_countDocuments ;;
  t <- Date_now ;;
  ret (Stats.mk totalLocations activeLocations (totalLocations - activeLocations)
         totalPaths t).

(** Every modelled route and event, the two above included. *)
Inductive step_all (w : World) : World -> Prop :=
  | step_all_step w' : step w w' -> step_all w w'
  | step_all_generate draws : step_all w (world_of (post_track_generate draws w))
  | step_all_stats : step_all w (world_of (get_stats w)).

(** ** Further notions used in the statements *)

(** A clock that never runs backwards. *)
Definition monotone (clk : nat -> Z) : Prop :=
  forall i j, i <= j -> (clk i <= clk j)%Z.

Definition inside_range (lat lng : Q) : Prop :=
  (-90 <= lat /\ lat <= 90 /\ -180 <= lng /\ lng <= 180)%Q.

Definition point_of (loc : Location.t) (p : Point.t) : Prop :=
  Point.lat p = Location.lat loc /\ Point.lng p = Location.lng loc.

(** What one socket gets through per-topic emissions. *)
Definition room_deliveries_to (c : socket_id) (es : list Emission) : list Emission :=
  List.filter is_room_target (deliveries_to c es).

(** A report on the boundary of both ranges. *)
Definition report_corner : UpdateData.t := report "TRK-ABC" (90 # 1) (- (180 # 1)).


Definition report_y : UpdateData.t := report "Y" (1 # 1) (2 # 1).

(** The query [{ isActive: true }] negated: the documents [GET /api/stats]
    reports as inactive. *)
Definition inactive_location (kv : string * Location.t) : Prop :=
  Location.isActive kv.2 = false.

#[global] Instance inactive_location_dec kv : Decision (inactive_location kv).
Proof. unfold inactive_location. apply _. Defined.

(** A clock that advances 25 hours per read. *)
Definition clock_25h (n : nat) : Z := (90000000 * Z.of_nat n)%Z.

(** ** Invariants of the stores *)

(** [z] is a value the clock has already returned. *)
Definition stamped (w : World) (z : Z) : Prop :=
  exists i, i < reads w /\ z = clock w i.

Definition location_ok (t : string) (loc : Location.t) : Prop :=
  Location.trackId loc = t /\ t <> "" /\
  inside_range (Location.lat loc) (Location.lng loc).

Definition path_ok (t : string) (ph : PathHistory.t) : Prop :=
  PathHistory.trackId ph = t /\ t <> "" /\
  PathHistory.points ph <> [] /\
  length (PathHistory.points ph) <= 1000 /\
  Forall (fun p => inside_range (Point.lat p) (Point.lng p)) (PathHistory.points ph).

Definition stores_ok (w : World) : Prop :=
  (forall t loc, locations w !! t = Some loc -> location_ok t loc) /\
  (forall t ph, pathHistories w !! t = Some ph -> path_ok t ph).

(** Points in the order of their timestamps, oldest first. *)
Definition oldest_first (l : list Point.t) : Prop :=
  StronglySorted (fun p q => (Point.timestamp p <= Point.timestamp q)%Z) l.

Definition path_timed (w : World) (ph : PathHistory.t) : Prop :=
  oldest_first (PathHistory.points ph) /\
  Forall (fun p => stamped w (Point.timestamp p) /\
                   (Point.timestamp p <= PathHistory.lastUpdated ph)%Z)
    (PathHistory.points ph) /\
  stamped w (PathHistory.lastUpdated ph).

(** The Position Record of a track goes with a Trail Record whose last
    point is that position. *)
Definition linked (w : World) : Prop :=
  forall t loc, locations w !! t = Some loc ->
    stamped w (Location.timestamp loc) /\
    exists ph p,
      pathHistories w !! t = Some ph /\
      last (PathHistory.points ph) = Some p /\
      point_of loc p /\
      (Location.timestamp loc <= Point.timestamp p)%Z.

Definition timed (w : World) : Prop :=
  (forall t ph, pathHistories w !! t = Some ph -> path_timed w ph) /\
  linked w.

(** A run that touches most routes: two tracks, a deactivation, a read of
    the statistics and a cleanup. *)
Definition world_busy : World :=
  world_of (post_cleanup
    (world_of (get_stats
      (world_of (post_deactivate "X"
        (world_of (on_location_update 1 report_abc
          (world_of (on_connection 1
            (world_of (post_location_update report_x (init clock_seconds)))))))))))).

(** * Properties *)

(** ** The update pipeline, unfolded *)

Lemma truthy_Some s t : truthy s = Some t -> s = Some t /\ t <> "".
Proof.
  destruct s as [s|]; simpl; [|discriminate].
  destruct (String.eqb s "") eqn:E; [discriminate|].
  intros [= ->]. split; [reflexivity|].
  intros ->. discriminate.
Qed.

Lemma truthy_nonempty t : t <> "" -> truthy (Some t) = Some t.
Proof.
  intros H. simpl. destruct (String.eqb_spec t ""); [contradiction|reflexivity].
Qed.

Lemma accepts_for_inv t d :
  accepts_for t d = true ->
  exists la ln,
    truthy (UpdateData.trackId d) = Some t /\
    UpdateData.lat d = Some la /\ UpdateData.lng d = Some ln /\
    invalid_coordinates la ln = false.
Proof.
  unfold accepts_for, accepts. intros H.
  apply andb_prop in H as [H1 H2].
  apply bool_decide_eq_true in H2.
  destruct (truthy (UpdateData.trackId d)) as [t'|] eqn:Et; [|discriminate].
  destruct (UpdateData.lat d) as [la|]; [|discriminate].
  destruct (UpdateData.lng d) as [ln|]; [|discriminate].
  exists la, ln. apply truthy_Some in Et as Et'. destruct Et' as [Et' _].
  rewrite H2 in Et'. injection Et' as <-.
  repeat (split; [reflexivity|]).
  now apply negb_true_iff in H1.
Qed.

Lemma post_location_update_accepted w d t la ln :
  truthy (UpdateData.trackId d) = Some t ->
  UpdateData.lat d = Some la -> UpdateData.lng d = Some ln ->
  invalid_coordinates la ln = false ->
  post_location_update d w =
    (mkResponse 200 (BUpdated (stored_location w t la ln d)),
     mkWorld (<[t := stored_location w t la ln d]> (locations w))
       (<[t := stored_trail w t la ln]> (pathHistories w))
       (sockets w) (rooms w) (clock w) (5 + reads w),
     [mkEmission ToAll (sockets w) "location:updated" (update_payload w t la ln d 3);
      mkEmission ToAll (sockets w) (legacy_event t) (update_payload w t la ln d 4)]).
Proof.
  intros Ht Hla Hln Hv. unfold post_location_update.
  rewrite Ht, Hla, Hln, Hv. reflexivity.
Qed.

Lemma on_location_update_accepted w c d t la ln :
  truthy (UpdateData.trackId d) = Some t ->
  UpdateData.lat d = Some la -> UpdateData.lng d = Some ln ->
  invalid_coordinates la ln = false ->
  on_location_update c d w =
    (tt,
     mkWorld (<[t := stored_location w t la ln d]> (locations w))
       (<[t := stored_trail w t la ln]> (pathHistories w))
       (sockets w) (rooms w) (clock w) (4 + reads w),
     [mkEmission ToAll (sockets w) "location:updated" (update_payload w t la ln d 3);
      mkEmission (ToRoom (room_of t)) (members (rooms w) (room_of t) ∩ sockets w)
        "location:updated" (update_payload w t la ln d 3);
      mkEmission ToAll (sockets w) (legacy_event t) (update_payload w t la ln d 3)]).
Proof.
  intros Ht Hla Hln Hv. unfold on_location_update.
  rewrite Ht, Hla, Hln, Hv. reflexivity.
Qed.

(** Both transports leave the same two stores behind. *)
Lemma submitUpdate_stores w e d t :
  accepts_for t d = true ->
  exists la ln,
    UpdateData.lat d = Some la /\ UpdateData.lng d = Some ln /\
    locations (world_of (submitUpdate e d w)) =
      <[t := stored_location w t la ln d]> (locations w) /\
    pathHistories (world_of (submitUpdate e d w)) =
      <[t := stored_trail w t la ln]> (pathHistories w) /\
    sockets (world_of (submitUpdate e d w)) = sockets w /\
    rooms (world_of (submitUpdate e d w)) = rooms w /\
    clock (world_of (submitUpdate e d w)) = clock w.
Proof.
  intros H. destruct (accepts_for_inv _ _ H) as (la & ln & Ht & Hla & Hln & Hv).
  exists la, ln. split; [assumption|]. split; [assumption|].
  destruct e as [|c]; unfold submitUpdate, bind.
  - rewrite (post_location_update_accepted w d t la ln Ht Hla Hln Hv). by cbn.
  - rewrite (on_location_update_accepted w c d t la ln Ht Hla Hln Hv). by cbn.
Qed.

(** A rejected update changes nothing: no store write, no clock read, and
    nothing is sent except the error to the sending socket. *)
Lemma submitUpdate_rejected w e d :
  accepts d = false ->
  world_of (submitUpdate e d w) = w /\
  forall x, x ∈ emitted (submitUpdate e d w) ->
    exists c, e = ViaSocket c /\ target x = ToSocket c /\ event x = "error".
Proof.
  unfold accepts. intros H.
  destruct e as [|c]; unfold submitUpdate, bind, post_location_update, on_location_update;
    destruct (truthy (UpdateData.trackId d)) as [t|];
    destruct (UpdateData.lat d) as [la|];
    destruct (UpdateData.lng d) as [ln|]; cbn;
    try (apply negb_false_iff in H; rewrite H; cbn);
    (split; [reflexivity|]); intros x Hx;
    try (by apply elem_of_nil in Hx);
    apply list_elem_of_singleton in Hx; subst x; eauto.
Qed.

(** ** The count bound of the trail *)

Lemma slice_last (l : list Point.t) : slice (-1000) l = drop (length l - 1000) l.
Proof. reflexivity. Qed.

Lemma length_slice_last (l : list Point.t) : length (slice (-1000) l) <= 1000.
Proof. rewrite slice_last, length_drop. lia. Qed.

Lemma slice_last_short (l : list Point.t) : length l <= 1000 -> slice (-1000) l = l.
Proof.
  intros H. rewrite slice_last. replace (length l - 1000) with 0 by lia. reflexivity.
Qed.

(** Trimming before a further append does not change what the last trim keeps. *)
Lemma slice_last_app (l k : list Point.t) :
  slice (-1000) (slice (-1000) l ++ k) = slice (-1000) (l ++ k).
Proof.
  rewrite !slice_last.
  rewrite <- (drop_app_le l k (length l - 1000)) by lia.
  rewrite drop_drop, length_drop, !length_app. f_equal. lia.
Qed.

Lemma submit_all_cons e d us w :
  world_of (submit_all ((e, d) :: us) w) =
  world_of (submit_all us (world_of (submitUpdate e d w))).
Proof. reflexivity. Qed.

Lemma accepts_for_accepts t d : accepts_for t d = true -> accepts d = true.
Proof. unfold accepts_for. intros H. by apply andb_prop in H as [H _]. Qed.

Lemma accepts_accepts_for d :
  accepts d = true -> exists t, accepts_for t d = true /\ t <> "".
Proof.
  intros H. unfold accepts_for. rewrite H. unfold accepts in H.
  destruct (truthy (UpdateData.trackId d)) as [t|] eqn:Et; [|discriminate].
  apply truthy_Some in Et as [Et Hne]. exists t. split; [|assumption].
  by apply bool_decide_eq_true.
Qed.

Lemma trail_submitUpdate_same w e d t :
  accepts_for t d = true ->
  exists la ln,
    UpdateData.lat d = Some la /\ UpdateData.lng d = Some ln /\
    trail (world_of (submitUpdate e d w)) t =
      slice (-1000) (trail w t ++ [Point.mk la ln (clock w (S (reads w)))]).
Proof.
  intros H. destruct (submitUpdate_stores w e d t H)
    as (la & ln & Hla & Hln & _ & Hp & _).
  exists la, ln. split; [assumption|]. split; [assumption|].
  unfold trail at 1. rewrite Hp, lookup_insert_eq. reflexivity.
Qed.

Lemma trail_submitUpdate_other w e d t t' :
  accepts_for t d = true -> t <> t' ->
  trail (world_of (submitUpdate e d w)) t' = trail w t'.
Proof.
  intros H Hne. destruct (submitUpdate_stores w e d t H)
    as (la & ln & _ & _ & _ & Hp & _).
  unfold trail. rewrite Hp, lookup_insert_ne by assumption. reflexivity.
Qed.

Lemma trail_submitUpdate_bound w e d t :
  length (trail w t) <= 1000 ->
  length (trail (world_of (submitUpdate e d w)) t) <= 1000.
Proof.
  intros Hb. destruct (accepts d) eqn:Ha.
  - destruct (accepts_accepts_for d Ha) as (t0 & H0 & _).
    destruct (decide (t0 = t)) as [->|Hne].
    + destruct (trail_submitUpdate_same w e d t H0) as (la & ln & _ & _ & ->).
      apply length_slice_last.
    + by rewrite (trail_submitUpdate_other w e d t0 t H0 Hne).
  - destruct (submitUpdate_rejected w e d Ha) as [-> _]. assumption.
Qed.

Lemma trail_submit_all_bound us : forall w t,
  length (trail w t) <= 1000 ->
  length (trail (world_of (submit_all us w)) t) <= 1000.
Proof.
  induction us as [|[e d] us IH]; intros w t Hb; [exact Hb|].
  rewrite submit_all_cons. apply IH. by apply trail_submitUpdate_bound.
Qed.

Lemma trail_submit_all us : forall w t,
  forallb (fun u => accepts_for t u.2) us = true ->
  length (trail w t) <= 1000 ->
  trail (world_of (submit_all us w)) t = slice (-1000) (trail w t ++ arrivals us w).
Proof.
  induction us as [|[e d] us IH]; intros w t Hall Hb.
  - cbn. rewrite app_nil_r. symmetry. by apply slice_last_short.
  - cbn [forallb] in Hall. apply andb_prop in Hall as [Hd Hall]. cbn in Hd.
    rewrite submit_all_cons, IH; [|assumption|by apply trail_submitUpdate_bound].
    destruct (trail_submitUpdate_same w e d t Hd) as (la & ln & Hla & Hln & ->).
    cbn [arrivals]. rewrite (accepts_for_accepts t d Hd), Hla, Hln.
    rewrite slice_last_app, <- app_assoc. reflexivity.
Qed.

Lemma length_arrivals us : forall w t,
  forallb (fun u => accepts_for t u.2) us = true ->
  length (arrivals us w) = length us.
Proof.
  induction us as [|[e d] us IH]; intros w t Hall; [reflexivity|].
  cbn [forallb] in Hall. apply andb_prop in Hall as [Hd Hall]. cbn in Hd.
  destruct (accepts_for_inv t d Hd) as (la & ln & _ & Hla & Hln & _).
  cbn [arrivals]. rewrite (accepts_for_accepts t d Hd), Hla, Hln.
  cbn. f_equal. by apply (IH _ t).
Qed.

Lemma get_path_value w t hours :
  t <> "" ->
  value_of (get_path t hours w) =
    mkResponse 200
      (BPoints (List.filter (fun point => Date_gt (Point.timestamp point) (timeAgo w hours))
                  (trail w t))).
Proof.
  intros Hne. unfold get_path, trail, timeAgo.
  destruct (String.eqb_spec t ""); [contradiction|].
  unfold bind, PathHistory_findOne. cbn.
  destruct (pathHistories w !! t); reflexivity.
Qed.

Lemma filter_all {A} (f : A -> bool) (l : list A) :
  forallb f l = true -> List.filter f l = l.
Proof.
  induction l as [|a l IH]; cbn; [reflexivity|].
  intros H. apply andb_prop in H as [Ha Hl]. rewrite Ha, IH by assumption. reflexivity.
Qed.

Lemma forallb_drop {A} (f : A -> bool) (l : list A) n :
  forallb f l = true -> forallb f (drop n l) = true.
Proof.
  revert n. induction l as [|a l IH]; intros [|n] H; cbn in *; try reflexivity;
    try assumption.
  apply andb_prop in H as [_ H]. by apply IH.
Qed.

(** ** The trail after a run of updates *)

(** C5. After any finite run of accepted updates for one track the trail
    holds at most 1000 points (from a trail within the bound, or after at
    least one update from any state).  For a track without a Trail Record,
    1500 accepted updates leave exactly the 1000 most recent points in
    arrival order, and [GET /api/path/:trackId] returns exactly these
    whenever its window reaches back past all of them. *)
Theorem trail_holds_last_1000 (w : World) (t : string) (us : list (Entry * UpdateData.t))
    (Hacc : forallb (fun u => accepts_for t u.2) us = true) :
  let w' := world_of (submit_all us w) in
  (length (trail w t) <= 1000 \/ us <> [] -> length (trail w' t) <= 1000) /\
  (pathHistories w !! t = None -> length us = 1500 ->
     trail w' t = drop 500 (arrivals us w) /\
     length (trail w' t) = 1000 /\
     forall hours,
       forallb (fun point => Date_gt (Point.timestamp point) (timeAgo w' hours))
         (arrivals us w) = true ->
       value_of (get_path t hours w') =
         mkResponse 200 (BPoints (drop 500 (arrivals us w)))).
Proof.
  intros w'. split.
  - intros [Hb | Hne]; [by apply trail_submit_all_bound|].
    destruct us as [|[e d] us]; [contradiction|]. subst w'.
    rewrite submit_all_cons. apply trail_submit_all_bound.
    cbn [forallb] in Hacc. apply andb_prop in Hacc as [Hd _]. cbn in Hd.
    destruct (trail_submitUpdate_same w e d t Hd) as (la & ln & _ & _ & ->).
    apply length_slice_last.
  - intros Hnone Hlen.
    assert (Ht : trail w t = []) by (unfold trail; by rewrite Hnone).
    assert (Hw' : trail w' t = drop 500 (arrivals us w)).
    { subst w'. rewrite (trail_submit_all us w t Hacc) by (rewrite Ht; cbn; lia).
      rewrite Ht, app_nil_l, slice_last, (length_arrivals us w t Hacc), Hlen.
      reflexivity. }
    split; [assumption|]. split.
    + rewrite Hw', length_drop, (length_arrivals us w t Hacc), Hlen. reflexivity.
    + intros hours Hcover.
      assert (Hne : t <> "").
      { destruct us as [|[e d] us]; [discriminate|].
        cbn [forallb] in Hacc. apply andb_prop in Hacc as [Hd _]. cbn in Hd.
        destruct (accepts_for_inv t d Hd) as (la & ln & Htr & _).
        by apply truthy_Some in Htr as [_ Htr]. }
      rewrite (get_path_value w' t hours Hne), Hw'. do 2 f_equal.
      apply filter_all. by apply forallb_drop.
Qed.

Lemma trail_holds_last_1000_witness :
  let w' := world_of (submit_all burst_1500 (init clock_seconds)) in
  length (trail w' "TRK-ABC") = 1000 /\
  value_of (get_path "TRK-ABC" (HoursInt 24) w') =
    mkResponse 200 (BPoints (drop 500 (arrivals burst_1500 (init clock_seconds)))).
Proof.
  intros w'.
  assert (Hacc : forallb (fun u => accepts_for "TRK-ABC" u.2) burst_1500 = true)
    by (vm_compute; reflexivity).
  assert (Hlen : length burst_1500 = 1500) by (vm_compute; reflexivity).
  assert (Hago : timeAgo w' (HoursInt 24) = Some (-78900000)%Z)
    by (vm_compute; reflexivity).
  destruct (trail_holds_last_1000 (init clock_seconds) "TRK-ABC" burst_1500 Hacc)
    as [_ H].
  destruct (H eq_refl Hlen) as (_ & Hl & Hget).
  split; [exact Hl|]. apply Hget. fold w'. rewrite Hago.
  vm_compute. reflexivity.
Defined.

(** ** Position Store *)

Lemma or_zero_spec (x : option Q) :
  match x with
  | Some s => (or_zero x == s)%Q
  | None => or_zero x = 0%Q
  end.
Proof.
  destruct x as [s|]; [|reflexivity]. unfold or_zero.
  destruct (Qeq_bool s 0) eqn:E; [|reflexivity].
  apply Qeq_bool_iff in E. by symmetry.
Qed.

Lemma get_location_found w t loc :
  t <> "" -> locations w !! t = Some loc ->
  value_of (get_location t w) =
    mkResponse 200
      (BLocation loc (clock w (reads w) - 30000 <? Location.timestamp loc)%Z).
Proof.
  intros Hne Hl. unfold get_location.
  destruct (String.eqb_spec t ""); [contradiction|].
  unfold bind, Location_findOne. cbn. rewrite Hl. reflexivity.
Qed.

Lemma accepts_for_nonempty t d : accepts_for t d = true -> t <> "".
Proof.
  intros H. destruct (accepts_for_inv t d H) as (la & ln & Ht & _).
  by apply truthy_Some in Ht as [_ Ht].
Qed.

(** C6. After an accepted update, by either entry point,
    [GET /api/location/:trackId] answers 200 with a record whose [lat] and
    [lng] are the submitted values, whose [isActive] is true, and whose
    [speed] and [accuracy] equal the submitted numbers, or are 0 when the
    field was absent. *)
Theorem position_reflects_update (w : World) (e : Entry) (d : UpdateData.t) (t : string)
    (Hacc : accepts_for t d = true) :
  exists loc isRecent,
    value_of (get_location t (world_of (submitUpdate e d w))) =
      mkResponse 200 (BLocation loc isRecent) /\
    Location.trackId loc = t /\
    UpdateData.lat d = Some (Location.lat loc) /\
    UpdateData.lng d = Some (Location.lng loc) /\
    Location.isActive loc = true /\
    match UpdateData.speed d with
    | Some s => (Location.speed loc == s)%Q
    | None => Location.speed loc = 0%Q
    end /\
    match UpdateData.accuracy d with
    | Some a => (Location.accuracy loc == a)%Q
    | None => Location.accuracy loc = 0%Q
    end.
Proof.
  destruct (submitUpdate_stores w e d t Hacc) as (la & ln & Hla & Hln & Hl & _).
  pose proof (accepts_for_nonempty t d Hacc) as Hne.
  eexists (stored_location w t la ln d), _. split.
  - apply get_location_found; [assumption|]. rewrite Hl. apply lookup_insert_eq.
  - cbn. repeat (split; [done|]). split; apply or_zero_spec.
Qed.

Lemma position_reflects_update_witness :
  accepts_for "TRK-ABC" report_abc = true /\
  exists loc isRecent,
    value_of (get_location "TRK-ABC"
                (world_of (submitUpdate ViaRest report_abc (init clock_seconds)))) =
      mkResponse 200 (BLocation loc isRecent) /\
    Location.trackId loc = "TRK-ABC" /\
    UpdateData.lat report_abc = Some (Location.lat loc) /\
    UpdateData.lng report_abc = Some (Location.lng loc) /\
    Location.isActive loc = true /\
    Location.speed loc = 0%Q /\
    Location.accuracy loc = 0%Q.
Proof.
  split; [reflexivity|].
  apply (position_reflects_update (init clock_seconds) ViaRest report_abc "TRK-ABC").
  reflexivity.
Defined.

(** The scenario of the specification, evaluated. *)
Example position_scenario_trk_abc :
  value_of (get_location "TRK-ABC"
              (world_of (submitUpdate ViaRest report_abc (init clock_seconds)))) =
    mkResponse 200
      (BLocation (Location.mk "TRK-ABC" (377 # 10) (- (1224 # 10)) 0 0 0 true) true).
Proof. vm_compute. reflexivity. Qed.

Lemma or_zero_nonneg (x : option Q) : absent_or_nonnegative x -> (0 <= or_zero x)%Q.
Proof.
  destruct x as [s|]; cbn; [|intros _; apply Qle_refl].
  intros H. destruct (Qeq_bool s 0); [apply Qle_refl|assumption].
Qed.

(** C9, as stated, fails: an update whose speed is -5 is accepted and the
    Position Record keeps speed -5. *)
Lemma negative_speed_is_stored :
  accepts report_negative_speed = true /\
  exists loc,
    locations (world_of (submitUpdate ViaRest report_negative_speed (init clock_seconds)))
      !! "TRK-ABC" = Some loc /\
    (Location.speed loc < 0)%Q.
Proof.
  split; [reflexivity|]. eexists. split; [vm_compute; reflexivity|]. reflexivity.
Qed.

(** C9, amended. For every accepted update the persisted [speed] and
    [accuracy] are [speed || 0] and [accuracy || 0]: the submitted number,
    or 0 when the field is absent.  They are nonnegative whenever the
    submitted value is absent or nonnegative. *)
Theorem stored_speed_accuracy (w : World) (e : Entry) (d : UpdateData.t) (t : string)
    (Hacc : accepts_for t d = true) :
  exists loc,
    locations (world_of (submitUpdate e d w)) !! t = Some loc /\
    Location.speed loc = or_zero (UpdateData.speed d) /\
    Location.accuracy loc = or_zero (UpdateData.accuracy d) /\
    (UpdateData.speed d = None -> Location.speed loc = 0%Q) /\
    (UpdateData.accuracy d = None -> Location.accuracy loc = 0%Q) /\
    (absent_or_nonnegative (UpdateData.speed d) -> (0 <= Location.speed loc)%Q) /\
    (absent_or_nonnegative (UpdateData.accuracy d) -> (0 <= Location.accuracy loc)%Q).
Proof.
  destruct (submitUpdate_stores w e d t Hacc) as (la & ln & Hla & Hln & Hl & _).
  exists (stored_location w t la ln d). split.
  - rewrite Hl. apply lookup_insert_eq.
  - cbn. repeat split; try apply or_zero_nonneg.
    + by intros ->.
    + by intros ->.
Qed.

Lemma stored_speed_accuracy_witness :
  exists loc,
    locations (world_of (submitUpdate (ViaSocket 1) report_abc (init clock_seconds)))
      !! "TRK-ABC" = Some loc /\
    (0 <= Location.speed loc)%Q /\ (0 <= Location.accuracy loc)%Q.
Proof.
  destruct (stored_speed_accuracy (init clock_seconds) (ViaSocket 1) report_abc "TRK-ABC")
    as (loc & Hl & _ & _ & _ & _ & Hs & Ha); [vm_compute; reflexivity|].
  exists loc. split; [exact Hl|]. split; [apply Hs | apply Ha]; exact I.
Defined.

(** ** Rejection of out-of-range coordinates *)

Lemma Qltb_lt (x y : Q) : Qltb x y = true <-> (x < y)%Q.
Proof.
  unfold Qltb. rewrite negb_true_iff. split.
  - intros H. apply Qnot_le_lt. intros Hle. apply Qle_bool_iff in Hle. congruence.
  - intros H. destruct (Qle_bool y x) eqn:E; [|reflexivity].
    apply Qle_bool_iff in E. exfalso. exact (Qlt_not_le _ _ H E).
Qed.

Lemma invalid_coordinates_spec (lat lng : Q) :
  invalid_coordinates lat lng = true <-> outside_range lat lng.
Proof.
  unfold invalid_coordinates, outside_range.
  rewrite !orb_true_iff, !Qltb_lt. tauto.
Qed.

(** C4, as stated, fails: with [lat = 95] but no [trackId] the request is
    turned down by the required-fields check, which comes first, and the
    answer is the missing-fields error, not the out-of-range one. *)
Lemma out_of_range_without_id_is_missing_fields :
  outside_range (95 # 1) (0 # 1) /\
  value_of (post_location_update report_lat_95_no_id (init clock_seconds)) =
    mkResponse 400 (BError "Missing required fields: trackId, lat, lng") /\
  emitted (on_location_update 1 report_lat_95_no_id (init clock_seconds)) =
    [mkEmission (ToSocket 1) {[1]} "error" (PError "Missing required fields")].
Proof.
  split; [right; left; reflexivity|]. split; reflexivity.
Qed.

(** C4, amended. For every input with a non-empty [trackId] and both
    coordinates present, if [lat] is outside [-90, 90] or [lng] outside
    [-180, 180] the update is rejected as out of range: the REST route
    answers 400 "Invalid coordinates", the socket handler sends that error
    to the sender only; the Position and Trail stores (the whole server
    state) are exactly as before and nothing is broadcast. *)
Theorem out_of_range_rejected (w : World) (d : UpdateData.t) (t : string) (la ln : Q)
    (socket : socket_id)
    (Hid : UpdateData.trackId d = Some t) (Hne : t <> "")
    (Hla : UpdateData.lat d = Some la) (Hln : UpdateData.lng d = Some ln)
    (Hout : outside_range la ln) :
  post_location_update d w = (mkResponse 400 (BError "Invalid coordinates"), w, []) /\
  on_location_update socket d w =
    (tt, w, [mkEmission (ToSocket socket) {[socket]} "error" (PError "Invalid coordinates")]) /\
  forall e,
    locations (world_of (submitUpdate e d w)) = locations w /\
    pathHistories (world_of (submitUpdate e d w)) = pathHistories w /\
    List.filter (fun x => negb (String.eqb (event x) "error"))
      (emitted (submitUpdate e d w)) = [].
Proof.
  apply invalid_coordinates_spec in Hout.
  assert (Hr : post_location_update d w =
               (mkResponse 400 (BError "Invalid coordinates"), w, [])).
  { unfold post_location_update. rewrite Hid, (truthy_nonempty t Hne), Hla, Hln, Hout.
    reflexivity. }
  assert (Hs : on_location_update socket d w =
               (tt, w, [mkEmission (ToSocket socket) {[socket]} "error"
                          (PError "Invalid coordinates")])).
  { unfold on_location_update. rewrite Hid, (truthy_nonempty t Hne), Hla, Hln, Hout.
    reflexivity. }
  split; [exact Hr|]. split; [exact Hs|].
  intros [|c]; unfold submitUpdate, bind.
  - rewrite Hr. by cbn.
  - unfold on_location_update. rewrite Hid, (truthy_nonempty t Hne), Hla, Hln, Hout.
    by cbn.
Qed.

Lemma out_of_range_rejected_witness :
  post_location_update report_lat_95 (init clock_seconds) =
    (mkResponse 400 (BError "Invalid coordinates"), init clock_seconds, []).
Proof.
  apply (out_of_range_rejected (init clock_seconds) report_lat_95 "TRK-ABC"
           (95 # 1) (0 # 1) 1).
  - reflexivity.
  - discriminate.
  - reflexivity.
  - reflexivity.
  - right; left; reflexivity.
Defined.

(** ** Deactivation *)

Lemma post_deactivate_found w t r :
  t <> "" -> locations w !! t = Some r ->
  post_deactivate t w =
    (mkResponse 200 (BDeactivated "Location sharing deactivated"),
     with_locations (insert t (set_isActive false r)) w, []).
Proof.
  intros Hne Hl. unfold post_deactivate.
  destruct (String.eqb_spec t ""); [contradiction|].
  unfold bind, Location_findOneAndUpdate_isActive. cbn. rewrite Hl. reflexivity.
Qed.

Lemma post_deactivate_not_found w t :
  t = "" \/ locations w !! t = None -> world_of (post_deactivate t w) = w.
Proof.
  unfold post_deactivate. destruct (String.eqb_spec t "") as [->|Hne]; [reflexivity|].
  intros [?|Hl]; [contradiction|].
  unfold bind, Location_findOneAndUpdate_isActive. cbn. rewrite Hl. reflexivity.
Qed.

(** ** Cleanup *)

Lemma post_cleanup_unfold w :
  post_cleanup w =
    (mkResponse 200
       (BCleanup (size (filter (stale_location (cutoff w)) (locations w)))
                 (size (filter (stale_path (cutoff w)) (pathHistories w)))),
     mkWorld (filter (fun kv => ~ stale_location (cutoff w) kv) (locations w))
       (filter (fun kv => ~ stale_path (cutoff w) kv) (pathHistories w))
       (sockets w) (rooms w) (clock w) (S (reads w)),
     []).
Proof. reflexivity. Qed.

Lemma cleanup_job_world w : world_of (cleanup_job w) = world_of (post_cleanup w).
Proof. reflexivity. Qed.

Lemma size_filter_complement {A} (P : string * A -> Prop) `{!forall kv, Decision (P kv)}
    (m : gmap string A) :
  size m = size (filter P m) + size (filter (fun kv => ~ P kv) m).
Proof.
  rewrite <- (map_filter_union_complement P m) at 1.
  apply map_size_disj_union, map_disjoint_filter_complement.
Qed.

(** ** Reachable server states *)

Lemma step_cases w w' :
  step w w' ->
  (exists e d, w' = world_of (submitUpdate e d w)) \/
  (exists t, w' = world_of (post_deactivate t w)) \/
  w' = world_of (post_cleanup w) \/
  (locations w' = locations w /\ pathHistories w' = pathHistories w).
Proof.
  destruct 1.
  - left. by exists ViaRest, d.
  - do 3 right. unfold get_location. destruct (String.eqb t ""); [done|].
    unfold bind, Location_findOne. cbn. by destruct (locations w !! t).
  - do 3 right. unfold get_path. destruct (String.eqb t ""); [done|].
    unfold bind, PathHistory_findOne. cbn. by destruct (pathHistories w !! t).
  - right; left. by exists t.
  - do 2 right; left. reflexivity.
  - do 2 right; left. apply cleanup_job_world.
  - by do 3 right.
  - by do 3 right.
  - by do 3 right.
  - by do 3 right.
  - left. by exists (ViaSocket c), d.
  - by do 3 right.
Qed.

Lemma step_no_empty_track w w' :
  step w w' -> locations w !! "" = None -> locations w' !! "" = None.
Proof.
  intros Hs H. destruct (step_cases w w' Hs) as [(e & d & ->)|[(t & ->)|[->|[-> _]]]].
  - destruct (accepts d) eqn:Ha.
    + destruct (accepts_accepts_for d Ha) as (t & Ht & Hne).
      destruct (submitUpdate_stores w e d t Ht) as (la & ln & _ & _ & -> & _).
      by rewrite lookup_insert_ne.
    + by destruct (submitUpdate_rejected w e d Ha) as [-> _].
  - destruct (decide (t = "")) as [->|Hne];
      [by rewrite post_deactivate_not_found by auto|].
    destruct (locations w !! t) as [r|] eqn:Hl.
    + rewrite (post_deactivate_found w t r Hne Hl). cbn. by rewrite lookup_insert_ne.
    + by rewrite post_deactivate_not_found by auto.
  - rewrite post_cleanup_unfold. cbn. apply map_lookup_filter_None. by left.
  - assumption.
Qed.

Lemma trail_filter (P : string * PathHistory.t -> Prop) `{!forall kv, Decision (P kv)}
    (m : gmap string PathHistory.t) t :
  points_of (filter P m !! t) = points_of (m !! t) \/ points_of (filter P m !! t) = [].
Proof.
  destruct (filter P m !! t) as [ph|] eqn:E; [|by right].
  apply map_lookup_filter_Some in E as [-> _]. by left.
Qed.

Lemma step_trail_bound w w' t :
  step w w' -> length (trail w t) <= 1000 -> length (trail w' t) <= 1000.
Proof.
  intros Hs H. destruct (step_cases w w' Hs) as [(e & d & ->)|[(t' & ->)|[->|[_ Hp]]]].
  - by apply trail_submitUpdate_bound.
  - destruct (decide (t' = "")) as [->|Hne];
      [by rewrite post_deactivate_not_found by auto|].
    destruct (locations w !! t') as [r|] eqn:Hl.
    + by rewrite (post_deactivate_found w t' r Hne Hl).
    + by rewrite post_deactivate_not_found by auto.
  - rewrite post_cleanup_unfold. unfold trail in *. cbn.
    destruct (trail_filter (fun kv => ~ stale_path (cutoff w) kv) (pathHistories w) t)
      as [-> | ->]; [assumption|cbn; lia].
  - unfold trail in *. by rewrite Hp.
Qed.

Lemma reachable_no_empty_track w : reachable w -> locations w !! "" = None.
Proof.
  intros [clk H]. revert w H. apply rtc_ind_r; [reflexivity|].
  intros y z _ Hs IH. by apply (step_no_empty_track y z).
Qed.

(** The trail bound holds in every state the server can get into. *)
Lemma reachable_trail_bound w t : reachable w -> length (trail w t) <= 1000.
Proof.
  intros [clk H]. revert w H.
  apply rtc_ind_r; [unfold trail; cbn; rewrite lookup_empty; cbn; lia|].
  intros y z _ Hs IH. by apply (step_trail_bound y z).
Qed.

(** C10. In every reachable state, for every [trackId] whose Position Record
    exists, [POST /api/location/deactivate/:trackId] answers success and
    replaces the record by the same record with [isActive = false]: its
    [trackId], [lat], [lng], [speed], [accuracy] and [timestamp] are kept.
    The records of other tracks, every Trail Record, the sockets and the
    rooms are unchanged, and nothing is emitted. *)
Theorem deactivate_changes_only_isActive (w : World) (t : string) (r : Location.t)
    (Hreach : reachable w) (Hfound : locations w !! t = Some r) :
  let res := post_deactivate t w in
  exists r',
    locations (world_of res) !! t = Some r' /\
    Location.isActive r' = false /\
    Location.trackId r' = Location.trackId r /\
    Location.lat r' = Location.lat r /\
    Location.lng r' = Location.lng r /\
    Location.speed r' = Location.speed r /\
    Location.accuracy r' = Location.accuracy r /\
    Location.timestamp r' = Location.timestamp r /\
    (forall t', t' <> t -> locations (world_of res) !! t' = locations w !! t') /\
    pathHistories (world_of res) = pathHistories w /\
    sockets (world_of res) = sockets w /\
    rooms (world_of res) = rooms w /\
    emitted res = [] /\
    value_of res = mkResponse 200 (BDeactivated "Location sharing deactivated").
Proof.
  intros res. subst res.
  assert (Hne : t <> "").
  { intros ->. rewrite (reachable_no_empty_track w Hreach) in Hfound. discriminate. }
  rewrite (post_deactivate_found w t r Hne Hfound). cbn.
  exists (set_isActive false r). split; [apply lookup_insert_eq|].
  repeat (split; [reflexivity|]). split; [|done].
  intros t' Hne'. by apply lookup_insert_ne.
Qed.

Lemma deactivate_changes_only_isActive_witness :
  let w := world_of (post_location_update report_abc (init clock_seconds)) in
  exists r',
    locations (world_of (post_deactivate "TRK-ABC" w)) !! "TRK-ABC" = Some r' /\
    Location.isActive r' = false /\
    pathHistories (world_of (post_deactivate "TRK-ABC" w)) = pathHistories w.
Proof.
  intros w.
  destruct (deactivate_changes_only_isActive w "TRK-ABC"
              (Location.mk "TRK-ABC" (377 # 10) (- (1224 # 10)) 0 0 0 true))
    as (r' & Hl & Ha & _ & _ & _ & _ & _ & _ & _ & Hp & _).
  - exists clock_seconds. eapply rtc_l; [apply step_rest_update|]. apply rtc_refl.
  - vm_compute. reflexivity.
  - exists r'. split; [exact Hl|]. split; [exact Ha|exact Hp].
Defined.

(** C7. After [POST /api/cleanup] with cutoff now - 24h, no surviving
    Position Record has a [timestamp] before the cutoff and no surviving
    Trail Record a [lastUpdated] before it; the records that were not stale
    all survive; the response carries the two deleted counts; and the hourly
    job leaves exactly the same state. *)
Theorem cleanup_purges_stale_records (w : World) :
  let res := post_cleanup w in
  let w' := world_of res in
  (forall t loc, locations w' !! t = Some loc ->
     locations w !! t = Some loc /\ (cutoff w <= Location.timestamp loc)%Z) /\
  (forall t ph, pathHistories w' !! t = Some ph ->
     pathHistories w !! t = Some ph /\ (cutoff w <= PathHistory.lastUpdated ph)%Z) /\
  (forall t loc, locations w !! t = Some loc ->
     (cutoff w <= Location.timestamp loc)%Z -> locations w' !! t = Some loc) /\
  (forall t ph, pathHistories w !! t = Some ph ->
     (cutoff w <= PathHistory.lastUpdated ph)%Z -> pathHistories w' !! t = Some ph) /\
  (exists deletedLocations deletedPaths,
     value_of res = mkResponse 200 (BCleanup deletedLocations deletedPaths) /\
     size (locations w) = deletedLocations + size (locations w') /\
     size (pathHistories w) = deletedPaths + size (pathHistories w')) /\
  world_of (cleanup_job w) = w'.
Proof.
  intros res w'. subst res w'. rewrite post_cleanup_unfold. cbn.
  split; [|split; [|split; [|split; [|split]]]].
  - intros t loc H. apply map_lookup_filter_Some in H as [H1 H2].
    split; [assumption|]. unfold stale_location in H2. cbn in H2. lia.
  - intros t ph H. apply map_lookup_filter_Some in H as [H1 H2].
    split; [assumption|]. unfold stale_path in H2. cbn in H2. lia.
  - intros t loc H1 H2. apply map_lookup_filter_Some. split; [assumption|].
    unfold stale_location. cbn. lia.
  - intros t ph H1 H2. apply map_lookup_filter_Some. split; [assumption|].
    unfold stale_path. cbn. lia.
  - eexists _, _. split; [reflexivity|]. split; apply size_filter_complement.
  - reflexivity.
Qed.

(** ** Subscriptions *)

Lemma members_insert rs room s : members (<[room := s]> rs) room = s.
Proof. unfold members. by rewrite lookup_insert_eq. Qed.

Lemma on_track_subscribe_unfold w c t :
  on_track_subscribe c t w =
    (tt,
     with_rooms (insert (room_of t) ({[c]} ∪ members (rooms w) (room_of t))) w,
     [mkEmission (ToSocket c) {[c]} "track:subscribed" (PAck t true)]).
Proof. reflexivity. Qed.

(** C8. Subscribing twice leaves the server in the same state as
    subscribing once: the room of the track holds the subscriber once more
    than before and nothing else changes, so any later update emits to the
    same recipients.  Each call sends the caller one [track:subscribed]
    acknowledgment naming the trackId. *)
Theorem subscribe_idempotent (w : World) (c : socket_id) (t : string) :
  let once := on_track_subscribe c t w in
  let twice := on_track_subscribe c t (world_of once) in
  world_of twice = world_of once /\
  members (rooms (world_of once)) (room_of t) = {[c]} ∪ members (rooms w) (room_of t) /\
  emitted once = [mkEmission (ToSocket c) {[c]} "track:subscribed" (PAck t true)] /\
  emitted twice = [mkEmission (ToSocket c) {[c]} "track:subscribed" (PAck t true)] /\
  forall e d,
    emitted (submitUpdate e d (world_of twice)) =
    emitted (submitUpdate e d (world_of once)).
Proof.
  intros once twice. subst once twice.
  assert (Hw : world_of (on_track_subscribe c t (world_of (on_track_subscribe c t w))) =
               world_of (on_track_subscribe c t w)).
  { rewrite !on_track_subscribe_unfold. unfold world_of, with_rooms. cbn.
    rewrite members_insert, insert_insert_eq. do 2 f_equal.
    by rewrite (assoc_L (∪)), (idemp_L (∪)). }
  split; [exact Hw|]. split.
  - rewrite on_track_subscribe_unfold. unfold world_of. cbn. apply members_insert.
  - split; [reflexivity|]. split; [reflexivity|]. intros e d. by rewrite Hw.
Qed.

(** ** Fan-out of an accepted update *)

(** C1, as stated, fails: a socket subscribed to track:X receives the
    [location:updated] event of one socket update for X twice, once from
    [io.emit] and once from [io.to('track:X').emit]. *)
Lemma subscriber_receives_update_twice :
  1 ∈ sockets world_subscribed /\
  1 ∈ members (rooms world_subscribed) (room_of "X") /\
  accepts_for "X" report_x = true /\
  received 1 "location:updated"
    (emitted (submitUpdate (ViaSocket 2) report_x world_subscribed)) = 2.
Proof.
  split; [by vm_compute|]. split; [by vm_compute|]. split; reflexivity.
Qed.

Lemma legacy_event_not_updated t :
  t <> "updated" -> String.eqb (legacy_event t) "location:updated" = false.
Proof.
  intros H. apply String.eqb_neq. unfold legacy_event. intros E.
  apply H. cbv in E. congruence.
Qed.

(** C1, amended. For every connected socket C subscribed to track:X, one
    accepted socket update for X is delivered to C by exactly three
    emissions carrying the same payload: [location:updated] from the global
    fan-out, [location:updated] from the topic track:X, and the legacy
    event [location:X]; so C receives [location:updated] exactly twice, and
    three times when X is the string "updated", whose legacy event bears
    that very name.  An accepted update, by either entry point, for a track
    Y to whose topic C is not subscribed produces no per-topic delivery to
    C, and C receives [location:updated] exactly once, from the global
    fan-out (twice when Y is the string "updated", for the same reason). *)
Theorem subscriber_deliveries (w : World) (c sender : socket_id) (X Y : string)
    (dX dY : UpdateData.t) (e : Entry)
    (Hconn : c ∈ sockets w)
    (Hsub : c ∈ members (rooms w) (room_of X))
    (Hnot : c ∉ members (rooms w) (room_of Y))
    (HX : accepts_for X dX = true) (HY : accepts_for Y dY = true) :
  (exists p,
     deliveries_to c (emitted (on_location_update sender dX w)) =
       [mkEmission ToAll (sockets w) "location:updated" p;
        mkEmission (ToRoom (room_of X)) (members (rooms w) (room_of X) ∩ sockets w)
          "location:updated" p;
        mkEmission ToAll (sockets w) (legacy_event X) p]) /\
  received c "location:updated" (emitted (on_location_update sender dX w)) =
    (if decide (X = "updated") then 3 else 2) /\
  List.filter is_room_target (deliveries_to c (emitted (submitUpdate e dY w))) = [] /\
  received c "location:updated" (emitted (submitUpdate e dY w)) =
    (if decide (Y = "updated") then 2 else 1).
Proof.
  destruct (accepts_for_inv X dX HX) as (la & ln & Ht & Hla & Hln & Hv).
  destruct (accepts_for_inv Y dY HY) as (la' & ln' & Ht' & Hla' & Hln' & Hv').
  assert (Hin : c ∈ members (rooms w) (room_of X) ∩ sockets w)
    by (apply elem_of_intersection; split; assumption).
  assert (Hout : c ∉ members (rooms w) (room_of Y) ∩ sockets w)
    by (intros [H _]%elem_of_intersection; contradiction).
  assert (Hlegacy : forall t,
            String.eqb (legacy_event t) "location:updated" =
            if decide (t = "updated") then true else false).
  { intros t. case_decide as Hu; [by subst t|].
    by apply legacy_event_not_updated. }
  rewrite (on_location_update_accepted w sender dX X la ln Ht Hla Hln Hv).
  unfold received, deliveries_to, emitted. cbn [snd List.filter recipients].
  rewrite !(bool_decide_eq_true_2 _ Hconn), !(bool_decide_eq_true_2 _ Hin).
  split; [eexists; reflexivity|]. split.
  - unfold named. cbn [List.filter event]. rewrite (Hlegacy X).
    by case_decide.
  - destruct e as [|c']; unfold submitUpdate, bind.
    + rewrite (post_location_update_accepted w dY Y la' ln' Ht' Hla' Hln' Hv').
      cbn [fst snd ret app List.filter recipients].
      rewrite !(bool_decide_eq_true_2 _ Hconn). split; [reflexivity|].
      unfold named. cbn [List.filter event]. rewrite (Hlegacy Y).
      by case_decide.
    + rewrite (on_location_update_accepted w c' dY Y la' ln' Ht' Hla' Hln' Hv').
      cbn [snd List.filter recipients].
      rewrite !(bool_decide_eq_true_2 _ Hconn), !(bool_decide_eq_false_2 _ Hout).
      split; [reflexivity|].
      unfold named. cbn [List.filter event]. rewrite (Hlegacy Y).
      by case_decide.
Qed.

Lemma subscriber_deliveries_witness :
  received 1 "location:updated"
    (emitted (on_location_update 2 report_x world_subscribed)) = 2 /\
  List.filter is_room_target
    (deliveries_to 1 (emitted (submitUpdate ViaRest report_abc world_subscribed))) = [] /\
  received 1 "location:updated"
    (emitted (submitUpdate ViaRest report_abc world_subscribed)) = 1.
Proof.
  destruct (subscriber_deliveries world_subscribed 1 2 "X" "TRK-ABC"
              report_x report_abc ViaRest) as (_ & H2 & H3 & H4).
  - by vm_compute.
  - by vm_compute.
  - by vm_compute.
  - reflexivity.
  - reflexivity.
  - split; [exact H2|]. split; [exact H3 | exact H4].
Defined.

(** ** The two entry points side by side *)

(** Both handlers take the accept/reject decision [accepts]: the REST route
    answers 200 exactly when it holds, and the socket handler sends an
    [error] event exactly when it does not. *)
Lemma accept_decision w c d :
  (accepts d = true <-> status (value_of (post_location_update d w)) = 200) /\
  (accepts d = false <->
   exists m, emitted (on_location_update c d w) =
               [mkEmission (ToSocket c) {[c]} "error" (PError m)]).
Proof.
  unfold accepts, post_location_update, on_location_update.
  destruct (truthy (UpdateData.trackId d)) as [t|];
    destruct (UpdateData.lat d) as [la|];
    destruct (UpdateData.lng d) as [ln|];
    try destruct (invalid_coordinates la ln);
    cbn; (split; [split; [done|done] | split; [intros _; eauto | done]]) ||
         (split; [split; [done|done] | split; [done | by intros [m ?]]]).
Qed.

(** C2. The two entry points take the same accept/reject decision and
    write the same Position and Trail records, but they do not emit the
    same events: for the update of track X with socket 1 subscribed to
    track:X, the socket handler emits to the room track:X and the REST
    route does not. *)
Theorem rest_update_omits_room_emission :
  accepts_for "X" report_x = true /\
  locations (world_of (submitUpdate ViaRest report_x world_subscribed)) =
    locations (world_of (submitUpdate (ViaSocket 2) report_x world_subscribed)) /\
  pathHistories (world_of (submitUpdate ViaRest report_x world_subscribed)) =
    pathHistories (world_of (submitUpdate (ViaSocket 2) report_x world_subscribed)) /\
  map shape (emitted (submitUpdate (ViaSocket 2) report_x world_subscribed)) =
    [(ToAll, "location:updated");
     (ToRoom "track:X", "location:updated");
     (ToAll, "location:X")] /\
  map shape (emitted (submitUpdate ViaRest report_x world_subscribed)) =
    [(ToAll, "location:updated");
     (ToAll, "location:X")] /\
  received 1 "location:updated"
    (emitted (submitUpdate (ViaSocket 2) report_x world_subscribed)) = 2 /\
  received 1 "location:updated"
    (emitted (submitUpdate ViaRest report_x world_subscribed)) = 1.
Proof.
  split; [reflexivity|].
  destruct (submitUpdate_stores world_subscribed ViaRest report_x "X" eq_refl)
    as (la & ln & Hla & Hln & Hl & Hp & _).
  destruct (submitUpdate_stores world_subscribed (ViaSocket 2) report_x "X" eq_refl)
    as (la' & ln' & Hla' & Hln' & Hl' & Hp' & _).
  rewrite Hla in Hla'. rewrite Hln in Hln'. injection Hla' as <-. injection Hln' as <-.
  split; [by rewrite Hl, Hl'|]. split; [by rewrite Hp, Hp'|].
  repeat split; vm_compute; reflexivity.
Qed.

(** ** The age bound of the trail *)

(** C3. The append keeps the count bound only.  Two accepted updates of one
    track 25 hours apart leave both points in the trail: the first one is
    older than 24 hours at the moment of the second append.  The [pre('save')]
    hook would drop it, but the update goes through [findOneAndUpdate],
    which does not run it. *)
Theorem append_keeps_point_older_than_24h :
  map Point.timestamp (trail world_next_day "TRK-ABC") = [1%Z; 90000006%Z] /\
  (1 < 90000006 - 24 * 60 * 60 * 1000)%Z /\
  (PathHistory.points <$>
     (doc ← pathHistories world_next_day !! "TRK-ABC";
      Some (value_of (pathHistory_pre_save doc world_next_day)))) =
    Some [Point.mk (377 # 10) (- (1224 # 10)) 90000006].
Proof.
  split; [vm_compute; reflexivity|]. split; [reflexivity|]. vm_compute. reflexivity.
Qed.

(** * Further properties of the routes and events *)

(** ** Validation *)

Lemma Qltb_false (x y : Q) : Qltb x y = false <-> (y <= x)%Q.
Proof.
  unfold Qltb. rewrite negb_false_iff. apply Qle_bool_iff.
Qed.

Lemma invalid_coordinates_false (lat lng : Q) :
  invalid_coordinates lat lng = false <-> inside_range lat lng.
Proof.
  unfold invalid_coordinates, inside_range.
  rewrite !orb_false_iff, !Qltb_false. tauto.
Qed.

Lemma accepts_spec d :
  accepts d = true <->
  exists t la ln,
    UpdateData.trackId d = Some t /\ t <> "" /\
    UpdateData.lat d = Some la /\ UpdateData.lng d = Some ln /\
    inside_range la ln.
Proof.
  unfold accepts. split.
  - destruct (truthy (UpdateData.trackId d)) as [t|] eqn:Et; [|discriminate].
    destruct (UpdateData.lat d) as [la|]; [|discriminate].
    destruct (UpdateData.lng d) as [ln|]; [|discriminate].
    intros H. apply negb_true_iff, invalid_coordinates_false in H.
    apply truthy_Some in Et as [Et Hne]. by exists t, la, ln.
  - intros (t & la & ln & -> & Hne & -> & -> & Hin).
    rewrite (truthy_nonempty t Hne).
    by apply negb_true_iff, invalid_coordinates_false.
Qed.

(** X1. Among the requests whose [trackId] is a string or absent and whose
    [lat], [lng], [speed] and [accuracy] are numbers or absent, an update is
    accepted exactly when [trackId] is non-empty, [lat] and [lng] are
    present and -90 <= lat <= 90, -180 <= lng <= 180, bounds included (so
    0, 90 and -180 pass): then, and only then, the REST route answers 200
    and the socket handler sends no [error] event. *)
Theorem update_accepted_iff (w : World) (socket : socket_id) (d : UpdateData.t) :
  (status (value_of (post_location_update d w)) = 200 <->
   exists t la ln,
     UpdateData.trackId d = Some t /\ t <> "" /\
     UpdateData.lat d = Some la /\ UpdateData.lng d = Some ln /\
     inside_range la ln) /\
  (named "error" (emitted (on_location_update socket d w)) = [] <->
   exists t la ln,
     UpdateData.trackId d = Some t /\ t <> "" /\
     UpdateData.lat d = Some la /\ UpdateData.lng d = Some ln /\
     inside_range la ln).
Proof.
  rewrite <- accepts_spec.
  destruct (accept_decision w socket d) as [H1 H2]. split; [by symmetry|]. split.
  - intros Hn. destruct (accepts d); [reflexivity|]. exfalso.
    destruct H2 as [H2 _]. destruct (H2 eq_refl) as [m Hm].
    rewrite Hm in Hn. discriminate.
  - intros Ha. destruct (accepts_accepts_for d Ha) as (t & Ht & _).
    destruct (accepts_for_inv t d Ht) as (la & ln & Htr & Hla & Hln & Hv).
    rewrite (on_location_update_accepted w socket d t la ln Htr Hla Hln Hv).
    unfold named, emitted. cbn [snd List.filter event].
    replace (String.eqb (legacy_event t) "error") with false; [reflexivity|].
    symmetry. apply String.eqb_neq. unfold legacy_event. intros E. cbv in E. congruence.
Qed.



(** ** Effect of one accepted update *)

(** X3. An accepted update for one track leaves the Position Record and the
    Trail Record of every other track, the connected sockets and the rooms
    as they were. *)
Theorem update_leaves_other_tracks (w : World) (e : Entry) (d : UpdateData.t)
    (t t' : string) (Hacc : accepts_for t d = true) (Hne : t <> t') :
  let w' := world_of (submitUpdate e d w) in
  locations w' !! t' = locations w !! t' /\
  pathHistories w' !! t' = pathHistories w !! t' /\
  sockets w' = sockets w /\
  rooms w' = rooms w.
Proof.
  intros w'. subst w'.
  destruct (submitUpdate_stores w e d t Hacc)
    as (la & ln & _ & _ & -> & -> & -> & -> & _).
  by rewrite !lookup_insert_ne.
Qed.

Lemma update_leaves_other_tracks_witness :
  let w := world_of (submitUpdate ViaRest report_x (init clock_seconds)) in
  locations (world_of (submitUpdate (ViaSocket 1) report_y w)) !! "X" =
    locations w !! "X" /\
  pathHistories (world_of (submitUpdate (ViaSocket 1) report_y w)) !! "X" =
    pathHistories w !! "X".
Proof.
  intros w.
  destruct (update_leaves_other_tracks w (ViaSocket 1) report_y "Y" "X")
    as (H1 & H2 & _); [reflexivity | discriminate |].
  split; [exact H1 | exact H2].
Defined.

(** X4. An accepted update puts its point at the end of the trail, stamped
    with the clock read made for it.  Below 1000 points nothing is dropped;
    at 1000 points exactly the oldest one is. *)
Theorem append_drops_oldest_when_full (w : World) (e : Entry) (d : UpdateData.t)
    (t : string) (Hacc : accepts_for t d = true) :
  let w' := world_of (submitUpdate e d w) in
  exists p,
    UpdateData.lat d = Some (Point.lat p) /\
    UpdateData.lng d = Some (Point.lng p) /\
    Point.timestamp p = clock w (S (reads w)) /\
    last (trail w' t) = Some p /\
    (length (trail w t) < 1000 -> trail w' t = trail w t ++ [p]) /\
    (length (trail w t) = 1000 -> trail w' t = drop 1 (trail w t) ++ [p]).
Proof.
  intros w'. subst w'.
  destruct (trail_submitUpdate_same w e d t Hacc) as (la & ln & Hla & Hln & ->).
  exists (Point.mk la ln (clock w (S (reads w)))).
  cbn [Point.lat Point.lng Point.timestamp].
  split; [assumption|]. split; [assumption|]. split; [reflexivity|].
  rewrite slice_last, length_app. cbn [length]. split; [|split].
  - rewrite drop_app_le by lia. apply last_snoc.
  - intros Hlt. replace (length (trail w t) + 1 - 1000) with 0 by lia. reflexivity.
  - intros Heq. rewrite Heq. by rewrite drop_app_le by lia.
Qed.

Lemma append_drops_oldest_when_full_witness :
  let w := world_of (submit_all burst_1500 (init clock_seconds)) in
  exists p,
    last (trail (world_of (submitUpdate ViaRest report_abc w)) "TRK-ABC") = Some p /\
    trail (world_of (submitUpdate ViaRest report_abc w)) "TRK-ABC" =
      drop 1 (trail w "TRK-ABC") ++ [p].
Proof.
  intros w.
  destruct (append_drops_oldest_when_full w ViaRest report_abc "TRK-ABC")
    as (p & _ & _ & _ & Hlast & _ & Hfull); [reflexivity|].
  exists p. split; [exact Hlast|]. apply Hfull.
  vm_compute. reflexivity.
Defined.

(** X5. An accepted REST update is emitted twice, both times to every
    connected socket whatever its subscriptions and never to a room: a
    connected socket receives both emissions, any other socket none.  The
    event [location:updated] thus arrives once, except for the track id
    "updated", whose legacy event carries the same name and makes it two. *)
Theorem rest_update_reaches_every_client (w : World) (c : socket_id)
    (d : UpdateData.t) (t : string) (Hacc : accepts_for t d = true) :
  let es := emitted (post_location_update d w) in
  map shape es = [(ToAll, "location:updated"); (ToAll, legacy_event t)] /\
  (c ∈ sockets w -> deliveries_to c es = es) /\
  (c ∉ sockets w -> deliveries_to c es = []) /\
  room_deliveries_to c es = [] /\
  (c ∈ sockets w ->
     received c "location:updated" es = if decide (t = "updated") then 2 else 1).
Proof.
  intros es. subst es.
  destruct (accepts_for_inv t d Hacc) as (la & ln & Ht & Hla & Hln & Hv).
  rewrite (post_location_update_accepted w d t la ln Ht Hla Hln Hv).
  unfold room_deliveries_to, received, named, deliveries_to, emitted.
  cbn [snd List.filter recipients map shape target event].
  split; [reflexivity|]. split; [|split; [|split]].
  - intros Hc. by rewrite !(bool_decide_eq_true_2 _ Hc).
  - intros Hc. by rewrite !(bool_decide_eq_false_2 _ Hc).
  - by destruct (bool_decide (c ∈ sockets w)).
  - intros Hc. rewrite !(bool_decide_eq_true_2 _ Hc).
    cbn [List.filter event]. case_decide as Hu.
    + subst t. reflexivity.
    + by rewrite (legacy_event_not_updated t Hu).
Qed.

Lemma rest_update_reaches_every_client_witness :
  received 2 "location:updated"
    (emitted (post_location_update report_x world_subscribed)) = 1.
Proof.
  destruct (rest_update_reaches_every_client world_subscribed 2 report_x "X")
    as (_ & _ & _ & _ & H); [reflexivity|].
  apply H. by vm_compute.
Defined.

(** ** Reading a position *)

Lemma get_location_unknown w t :
  t <> "" -> locations w !! t = None ->
  get_location t w = (mkResponse 404 (BError "Track ID not found"), w, []).
Proof.
  intros Hne Hl. unfold get_location.
  destruct (String.eqb_spec t ""); [contradiction|].
  unfold bind, Location_findOne. cbn. by rewrite Hl.
Qed.

(** X6. For every non-empty id (Express routes no empty [:trackId] to the
    handler), [GET /api/location/:trackId] only reads: the Position and
    Trail stores, the sockets and the rooms are unchanged and nothing is
    emitted.  An id without a Position Record is answered 404
    "Track ID not found", without a read of the clock. *)
Theorem get_location_only_reads (w : World) (t : string) (Hne : t <> "") :
  let res := get_location t w in
  locations (world_of res) = locations w /\
  pathHistories (world_of res) = pathHistories w /\
  sockets (world_of res) = sockets w /\
  rooms (world_of res) = rooms w /\
  emitted res = [] /\
  (locations w !! t = None ->
     res = (mkResponse 404 (BError "Track ID not found"), w, [])).
Proof.
  intros res. subst res. unfold get_location.
  destruct (String.eqb_spec t "") as [->|_]; [contradiction|].
  unfold bind, Location_findOne. cbn.
  destruct (locations w !! t) as [loc|]; cbn.
  - do 5 (split; [reflexivity|]). by intros ?.
  - do 5 (split; [reflexivity|]). by intros _.
Qed.

Lemma get_location_only_reads_witness :
  get_location "TRK-ABC" (init clock_seconds) =
    (mkResponse 404 (BError "Track ID not found"), init clock_seconds, []).
Proof.
  destruct (get_location_only_reads (init clock_seconds) "TRK-ABC")
    as (_ & _ & _ & _ & _ & H); [discriminate|].
  apply H. reflexivity.
Defined.

Lemma reads_submitUpdate w e d t :
  accepts_for t d = true ->
  reads (world_of (submitUpdate e d w)) =
    match e with ViaRest => 5 | ViaSocket _ => 4 end + reads w.
Proof.
  intros H. destruct (accepts_for_inv t d H) as (la & ln & Ht & Hla & Hln & Hv).
  destruct e as [|c]; unfold submitUpdate, bind.
  - by rewrite (post_location_update_accepted w d t la ln Ht Hla Hln Hv).
  - by rewrite (on_location_update_accepted w c d t la ln Ht Hla Hln Hv).
Qed.

(** X7. A position read right after an accepted update is flagged
    [isRecent] exactly when less than 30 seconds lie between the clock read
    that stamped the update and the clock read of the GET; at 30 seconds
    sharp it is no longer recent. *)
Theorem position_is_recent_within_30s (w : World) (e : Entry) (d : UpdateData.t)
    (t : string) (Hacc : accepts_for t d = true) :
  let w' := world_of (submitUpdate e d w) in
  exists loc isRecent,
    value_of (get_location t w') = mkResponse 200 (BLocation loc isRecent) /\
    Location.timestamp loc = clock w (reads w) /\
    (isRecent = true <-> (clock w (reads w') - clock w (reads w) < 30000)%Z).
Proof.
  intros w'. subst w'.
  destruct (submitUpdate_stores w e d t Hacc)
    as (la & ln & _ & _ & Hl & _ & _ & _ & Hclk).
  pose proof (accepts_for_nonempty t d Hacc) as Hne.
  eexists (stored_location w t la ln d), _. split.
  { apply get_location_found; [assumption|]. rewrite Hl. apply lookup_insert_eq. }
  split; [reflexivity|]. rewrite Hclk. cbn [stored_location Location.timestamp].
  rewrite Z.ltb_lt. lia.
Qed.

Lemma position_is_recent_within_30s_witness :
  exists loc,
    value_of (get_location "TRK-ABC"
                (world_of (submitUpdate ViaRest report_abc (init clock_seconds)))) =
      mkResponse 200 (BLocation loc true).
Proof.
  destruct (position_is_recent_within_30s (init clock_seconds) ViaRest report_abc
              "TRK-ABC") as (loc & isRecent & Hget & _ & Hrec); [reflexivity|].
  exists loc. rewrite Hget.
  replace isRecent with true; [reflexivity|]. symmetry. apply Hrec. reflexivity.
Defined.

(** ** Reading a trail *)


Lemma elem_of_List_filter {A} (f : A -> bool) (l : list A) (x : A) :
  x ∈ List.filter f l <-> x ∈ l /\ f x = true.
Proof. rewrite !list_elem_of_In. apply filter_In. Qed.




(** X9. When [hours] does not parse to a number, or is so large that the
    start of the window is not a valid date (beyond 8.64e15 ms from the
    epoch), the route answers 200 with no points at all, however many the
    trail holds. *)
Theorem get_path_without_valid_window_is_empty (w : World) (t : string)
    (hours : HoursQuery) (Hne : t <> "")
    (Hbad : hours = HoursNaN \/
            exists n, hours = HoursInt n /\
              (8640000000000000 < Z.abs (clock w (reads w) - n * 60 * 60 * 1000))%Z) :
  value_of (get_path t hours w) = mkResponse 200 (BPoints []).
Proof.
  rewrite (get_path_value w t hours Hne).
  assert (Hago : timeAgo w hours = None).
  { destruct Hbad as [-> | (n & -> & Hn)]; [reflexivity|].
    unfold timeAgo, Date_of. cbn [hoursNum_of].
    destruct (Z.leb_spec (Z.abs (clock w (reads w) - n * 60 * 60 * 1000))
                8640000000000000); [lia|reflexivity]. }
  rewrite Hago. do 2 f_equal.
  induction (trail w t) as [|p l IH]; [reflexivity|exact IH].
Qed.

Lemma get_path_without_valid_window_is_empty_witness :
  value_of (get_path "TRK-ABC" (HoursInt 10000000000)
              (world_of (submitUpdate ViaRest report_abc (init clock_seconds)))) =
    mkResponse 200 (BPoints []).
Proof.
  apply get_path_without_valid_window_is_empty; [discriminate|].
  right. exists 10000000000%Z. split; [reflexivity|]. vm_compute. reflexivity.
Defined.

(** ** Deactivation, continued *)

(** X10. Deactivating a track that has no Position Record answers 404
    "Track ID not found" and changes nothing: unlike an update, it never
    creates a record. *)
Theorem deactivate_unknown_is_not_found (w : World) (t : string)
    (Hne : t <> "") (Hnone : locations w !! t = None) :
  post_deactivate t w = (mkResponse 404 (BError "Track ID not found"), w, []).
Proof.
  unfold post_deactivate. destruct (String.eqb_spec t ""); [contradiction|].
  unfold bind, Location_findOneAndUpdate_isActive. cbn. by rewrite Hnone.
Qed.

Lemma deactivate_unknown_is_not_found_witness :
  post_deactivate "TRK-ABC" (init clock_seconds) =
    (mkResponse 404 (BError "Track ID not found"), init clock_seconds, []).
Proof.
  apply deactivate_unknown_is_not_found; [discriminate|reflexivity].
Defined.

(** X11. Deactivation sticks and is idempotent: after it, a position read
    answers the same record with [isActive = false], and a second
    deactivation answers success again and leaves the state as it is. *)
Theorem deactivate_sticks (w : World) (t : string) (r : Location.t)
    (Hne : t <> "") (Hfound : locations w !! t = Some r) :
  let w1 := world_of (post_deactivate t w) in
  (exists isRecent,
     value_of (get_location t w1) =
       mkResponse 200 (BLocation (set_isActive false r) isRecent)) /\
  post_deactivate t w1 =
    (mkResponse 200 (BDeactivated "Location sharing deactivated"), w1, []).
Proof.
  intros w1. subst w1. rewrite (post_deactivate_found w t r Hne Hfound).
  unfold world_of. cbn [fst snd].
  assert (Hl : locations (with_locations (insert t (set_isActive false r)) w) !! t =
               Some (set_isActive false r)) by apply lookup_insert_eq.
  split.
  - eexists. by apply get_location_found.
  - rewrite (post_deactivate_found _ t _ Hne Hl). do 2 f_equal.
    unfold with_locations. cbn. by rewrite insert_insert_eq.
Qed.

Lemma deactivate_sticks_witness :
  let w := world_of (post_location_update report_abc (init clock_seconds)) in
  post_deactivate "TRK-ABC" (world_of (post_deactivate "TRK-ABC" w)) =
    (mkResponse 200 (BDeactivated "Location sharing deactivated"),
     world_of (post_deactivate "TRK-ABC" w), []).
Proof.
  intros w.
  apply (deactivate_sticks w "TRK-ABC"
           (Location.mk "TRK-ABC" (377 # 10) (- (1224 # 10)) 0 0 0 true)).
  - discriminate.
  - vm_compute. reflexivity.
Defined.

(** ** Subscriptions, continued *)

Lemma room_of_inj t t' : room_of t = room_of t' -> t = t'.
Proof. unfold room_of. intros E. cbv in E. congruence. Qed.

Lemma rooms_unsubscribe w c t :
  members (rooms (world_of (on_track_unsubscribe c t w))) (room_of t) =
    members (rooms w) (room_of t) ∖ {[c]} /\
  forall room, room <> room_of t ->
    rooms (world_of (on_track_unsubscribe c t w)) !! room = rooms w !! room.
Proof.
  unfold on_track_unsubscribe, bind, socket_leave, world_of, members. cbn.
  destruct (rooms w !! room_of t) as [s|] eqn:Hs; cbn.
  - unfold without. case_decide as He.
    + split; [by rewrite lookup_delete_eq|]. intros room Hr.
      by rewrite lookup_delete_ne.
    + split; [by rewrite lookup_insert_eq|]. intros room Hr.
      by rewrite lookup_insert_ne.
  - rewrite Hs. cbn. split; [|done].
    apply set_eq. intros x. rewrite elem_of_difference.
    split; [by intros ?%not_elem_of_empty|]. by intros [?%not_elem_of_empty _].
Qed.

(** X12. After [track:unsubscribe] the socket is no longer in the room of
    the track, whether or not it was before; the other members of the room
    and all other rooms stay; the caller gets one [track:unsubscribed]
    acknowledgment naming the trackId; and a later socket update for the
    track makes no per-topic delivery to it. *)
Theorem unsubscribe_leaves_room (w : World) (c : socket_id) (t : string) :
  let res := on_track_unsubscribe c t w in
  let w' := world_of res in
  (c ∉ members (rooms w') (room_of t)) /\
  (forall c', c' <> c ->
     (c' ∈ members (rooms w') (room_of t) <-> c' ∈ members (rooms w) (room_of t))) /\
  (forall room, room <> room_of t -> rooms w' !! room = rooms w !! room) /\
  emitted res = [mkEmission (ToSocket c) {[c]} "track:unsubscribed" (PAck t true)] /\
  locations w' = locations w /\
  pathHistories w' = pathHistories w /\
  sockets w' = sockets w /\
  forall sender d, accepts_for t d = true ->
    room_deliveries_to c (emitted (on_location_update sender d w')) = [].
Proof.
  intros res w'. subst res w'.
  destruct (rooms_unsubscribe w c t) as [Hm Hother].
  assert (Hc : c ∉ members (rooms (world_of (on_track_unsubscribe c t w))) (room_of t)).
  { rewrite Hm. rewrite elem_of_difference, elem_of_singleton. by intros [_ ?]. }
  split; [exact Hc|]. split.
  { intros c' Hne. rewrite Hm, elem_of_difference, elem_of_singleton. tauto. }
  split; [exact Hother|]. do 4 (split; [reflexivity|]).
  intros sender d Hacc.
  destruct (accepts_for_inv t d Hacc) as (la & ln & Ht & Hla & Hln & Hv).
  rewrite (on_location_update_accepted _ sender d t la ln Ht Hla Hln Hv).
  unfold room_deliveries_to, deliveries_to, emitted.
  cbn [snd List.filter recipients].
  rewrite (bool_decide_eq_false_2
             (c ∈ members (rooms (world_of (on_track_unsubscribe c t w))) (room_of t)
                  ∩ sockets (world_of (on_track_unsubscribe c t w)))).
  - by destruct (bool_decide
                   (c ∈ sockets (world_of (on_track_unsubscribe c t w)))).
  - by intros [? _]%elem_of_intersection.
Qed.

(** X13. Unsubscribing undoes a subscription: for a socket that was not in
    the room of the track (rooms being stored non-empty, as Socket.IO keeps
    them), subscribing and then unsubscribing leaves the server state
    exactly as it was. *)
Theorem unsubscribe_undoes_subscribe (w : World) (c : socket_id) (t : string)
    (Hnot : c ∉ members (rooms w) (room_of t))
    (Hroom : rooms w !! room_of t <> Some ∅) :
  world_of (on_track_unsubscribe c t (world_of (on_track_subscribe c t w))) = w.
Proof.
  rewrite on_track_subscribe_unfold.
  unfold on_track_unsubscribe, bind, socket_leave, world_of, with_rooms. cbn.
  rewrite lookup_insert_eq. unfold without, members in *.
  assert (Hd : ({[c]} ∪ default ∅ (rooms w !! room_of t)) ∖ {[c]} =
               default ∅ (rooms w !! room_of t)).
  { apply set_eq. intros x.
    rewrite elem_of_difference, elem_of_union, !elem_of_singleton.
    split; [tauto|]. intros Hx. split; [by right|]. by intros ->. }
  rewrite Hd. destruct w as [ls ps ss rs clk n]. cbn in *. f_equal.
  destruct (rs !! room_of t) as [s|] eqn:Hs; cbn.
  - case_decide as He; [by subst s|]. rewrite insert_insert_eq. by apply insert_id.
  - rewrite decide_True by reflexivity. rewrite delete_insert_eq.
    by apply delete_id.
Qed.

Lemma unsubscribe_undoes_subscribe_witness :
  world_of (on_track_unsubscribe 2 "X" (world_of (on_track_subscribe 2 "X" world_subscribed)))
    = world_subscribed.
Proof.
  apply unsubscribe_undoes_subscribe.
  - vm_compute. discriminate.
  - vm_compute. discriminate.
Defined.

(** X14. Subscriptions are per track: subscribing to or unsubscribing from
    track [t] leaves the members of the room of every other track, the two
    stores and the connected sockets as they were. *)
Theorem subscription_touches_one_room (w : World) (c : socket_id) (t t' : string)
    (Hne : t <> t') :
  let ws := world_of (on_track_subscribe c t w) in
  let wu := world_of (on_track_unsubscribe c t w) in
  members (rooms ws) (room_of t') = members (rooms w) (room_of t') /\
  members (rooms wu) (room_of t') = members (rooms w) (room_of t') /\
  locations ws = locations w /\ pathHistories ws = pathHistories w /\
  sockets ws = sockets w /\
  locations wu = locations w /\ pathHistories wu = pathHistories w /\
  sockets wu = sockets w.
Proof.
  intros ws wu. subst ws wu.
  assert (Hr : room_of t' <> room_of t) by (intros E; by apply room_of_inj in E).
  split.
  - rewrite on_track_subscribe_unfold. unfold world_of, members. cbn.
    by rewrite lookup_insert_ne.
  - split; [|done].
    destruct (rooms_unsubscribe w c t) as [_ Hother].
    unfold members. by rewrite (Hother _ Hr).
Qed.

Lemma subscription_touches_one_room_witness :
  members (rooms (world_of (on_track_unsubscribe 1 "Y" world_subscribed))) (room_of "X") =
    members (rooms world_subscribed) (room_of "X").
Proof.
  destruct (subscription_touches_one_room world_subscribed 1 "Y" "X")
    as (_ & H & _); [discriminate|]. exact H.
Defined.

(** ** Cleanup, continued *)

Lemma post_cleanup_lookup_location w t :
  locations (world_of (post_cleanup w)) !! t =
    match locations w !! t with
    | Some loc => if decide (Location.timestamp loc < cutoff w)%Z then None else Some loc
    | None => None
    end.
Proof.
  rewrite post_cleanup_unfold. unfold world_of. cbn [fst snd locations].
  destruct (locations w !! t) as [loc|] eqn:Hl.
  - case_decide as Hs.
    + apply map_lookup_filter_None. right. intros x Hx. rewrite Hl in Hx.
      injection Hx as <-. unfold stale_location. cbn. tauto.
    + apply map_lookup_filter_Some. split; [assumption|]. exact Hs.
  - apply map_lookup_filter_None. by left.
Qed.

Lemma post_cleanup_lookup_path w t :
  pathHistories (world_of (post_cleanup w)) !! t =
    match pathHistories w !! t with
    | Some ph => if decide (PathHistory.lastUpdated ph < cutoff w)%Z then None else Some ph
    | None => None
    end.
Proof.
  rewrite post_cleanup_unfold. unfold world_of. cbn [fst snd pathHistories].
  destruct (pathHistories w !! t) as [ph|] eqn:Hl.
  - case_decide as Hs.
    + apply map_lookup_filter_None. right. intros x Hx. rewrite Hl in Hx.
      injection Hx as <-. unfold stale_path. cbn. tauto.
    + apply map_lookup_filter_Some. split; [assumption|]. exact Hs.
  - apply map_lookup_filter_None. by left.
Qed.

(** X15. A track updated at most 24 hours before a cleanup survives it,
    Position Record and Trail Record alike: the deletion is strict, so a
    record exactly 24 hours old still stays.  The clock is assumed not to
    run backwards. *)
Theorem cleanup_keeps_fresh_track (w : World) (e : Entry) (d : UpdateData.t)
    (t : string) (Hacc : accepts_for t d = true) (Hmono : monotone (clock w))
    (Hfresh : (clock w (reads (world_of (submitUpdate e d w))) - clock w (reads w)
               <= 24 * 60 * 60 * 1000)%Z) :
  let w1 := world_of (submitUpdate e d w) in
  let w2 := world_of (post_cleanup w1) in
  is_Some (locations w2 !! t) /\
  locations w2 !! t = locations w1 !! t /\
  is_Some (pathHistories w2 !! t) /\
  pathHistories w2 !! t = pathHistories w1 !! t.
Proof.
  intros w1 w2. subst w2.
  destruct (submitUpdate_stores w e d t Hacc)
    as (la & ln & _ & _ & Hl & Hp & _ & _ & Hclk).
  pose proof (Hmono (reads w) (S (S (reads w))) ltac:(lia)) as Hm.
  fold w1 in Hl, Hp, Hclk, Hfresh.
  assert (Hc : cutoff w1 = (clock w (reads w1) - 24 * 60 * 60 * 1000)%Z)
    by (unfold cutoff; by rewrite Hclk).
  assert (Hl1 : locations w1 !! t = Some (stored_location w t la ln d))
    by (rewrite Hl; apply lookup_insert_eq).
  assert (Hp1 : pathHistories w1 !! t = Some (stored_trail w t la ln))
    by (rewrite Hp; apply lookup_insert_eq).
  rewrite post_cleanup_lookup_location, post_cleanup_lookup_path, Hl1, Hp1, Hc.
  rewrite !decide_False by (cbn; lia). by repeat split.
Qed.

Lemma cleanup_keeps_fresh_track_witness :
  let w1 := world_of (submitUpdate ViaRest report_abc (init clock_seconds)) in
  is_Some (locations (world_of (post_cleanup w1)) !! "TRK-ABC").
Proof.
  intros w1.
  destruct (cleanup_keeps_fresh_track (init clock_seconds) ViaRest report_abc "TRK-ABC")
    as (H & _).
  - reflexivity.
  - intros i j Hij. cbn. unfold clock_seconds. lia.
  - vm_compute. discriminate.
  - exact H.
Defined.

(** X16. A track whose Position Record is older than 24 hours at a cleanup
    is gone afterwards: a position read and a deactivation both answer 404;
    and if its Trail Record is that old too, a trail read answers the empty
    list. *)
Theorem cleanup_forgets_stale_track (w : World) (t : string) (loc : Location.t)
    (Hne : t <> "") (Hl : locations w !! t = Some loc)
    (Hstale : (Location.timestamp loc < cutoff w)%Z) :
  let w' := world_of (post_cleanup w) in
  value_of (get_location t w') = mkResponse 404 (BError "Track ID not found") /\
  value_of (post_deactivate t w') = mkResponse 404 (BError "Track ID not found") /\
  forall ph hours,
    pathHistories w !! t = Some ph -> (PathHistory.lastUpdated ph < cutoff w)%Z ->
    value_of (get_path t hours w') = mkResponse 200 (BPoints []).
Proof.
  intros w'.
  assert (Hgone : locations w' !! t = None).
  { subst w'. rewrite post_cleanup_lookup_location, Hl. by rewrite decide_True. }
  assert (Hpath : forall ph, pathHistories w !! t = Some ph ->
                    (PathHistory.lastUpdated ph < cutoff w)%Z -> trail w' t = []).
  { intros ph Hp Hs. unfold trail. subst w'.
    rewrite post_cleanup_lookup_path, Hp. by rewrite decide_True. }
  clearbody w'. split; [|split].
  - by rewrite (get_location_unknown w' t Hne Hgone).
  - unfold post_deactivate. destruct (String.eqb_spec t ""); [contradiction|].
    unfold bind, Location_findOneAndUpdate_isActive. cbn. by rewrite Hgone.
  - intros ph hours Hp Hs. rewrite (get_path_value w' t hours Hne).
    by rewrite (Hpath ph Hp Hs).
Qed.

Lemma cleanup_forgets_stale_track_witness :
  let w := world_of (submitUpdate ViaRest report_abc (init clock_25h)) in
  value_of (get_location "TRK-ABC" (world_of (post_cleanup w))) =
    mkResponse 404 (BError "Track ID not found") /\
  value_of (get_path "TRK-ABC" HoursAbsent (world_of (post_cleanup w))) =
    mkResponse 200 (BPoints []).
Proof.
  intros w.
  destruct (cleanup_forgets_stale_track w "TRK-ABC"
              (Location.mk "TRK-ABC" (377 # 10) (- (1224 # 10)) 0 0 0 true))
    as (H1 & _ & H3).
  - discriminate.
  - vm_compute. reflexivity.
  - vm_compute. reflexivity.
  - split; [exact H1|].
    apply (H3 (PathHistory.mk "TRK-ABC"
                 [Point.mk (377 # 10) (- (1224 # 10)) 90000000] 180000000)).
    + vm_compute. reflexivity.
    + vm_compute. reflexivity.
Defined.

(** ** Statistics *)



Lemma size_filter_active_insert (m : gmap string Location.t) t loc :
  size (filter active_location (<[t := loc]> m)) +
    (match m !! t with
     | Some old => if Location.isActive old then 1 else 0
     | None => 0
     end) =
  size (filter active_location m) + (if Location.isActive loc then 1 else 0).
Proof.
  rewrite map_filter_insert.
  assert (Hold : filter active_location m !! t =
                 match m !! t with
                 | Some old => if Location.isActive old then Some old else None
                 | None => None
                 end).
  { destruct (m !! t) as [old|] eqn:Hm.
    - destruct (Location.isActive old) eqn:Ha.
      + by apply map_lookup_filter_Some.
      + apply map_lookup_filter_None. right. intros x Hx. rewrite Hm in Hx.
        injection Hx as <-. unfold active_location. cbn. congruence.
    - apply map_lookup_filter_None. by left. }
  case_decide as Hd; unfold active_location in Hd; cbn in Hd.
  - rewrite Hd, map_size_insert, Hold.
    destruct (m !! t) as [old|]; [destruct (Location.isActive old)|]; cbn; lia.
  - apply not_true_is_false in Hd. rewrite Hd, map_filter_delete, map_size_delete, Hold.
    destruct (m !! t) as [old|] eqn:Hm; [destruct (Location.isActive old) eqn:Ha|];
      cbn; try lia.
    assert (Hs : size (filter active_location m) <> 0).
    { apply map_size_ne_0_lookup. exists t. rewrite Hold. eauto. }
    lia.
Qed.

(** X18. The statistics follow the writes.  Deactivating an active track
    moves one record from active to inactive and keeps the total; an
    accepted update of a track without a Position Record adds one to the
    total and to the active count, and an accepted update of an inactive
    track moves it back to active. *)
Theorem stats_follow_writes (w : World) (t : string) :
  let s := value_of (get_stats w) in
  (forall r, t <> "" -> locations w !! t = Some r -> Location.isActive r = true ->
     let s' := value_of (get_stats (world_of (post_deactivate t w))) in
     Stats.totalLocations s' = Stats.totalLocations s /\
     Stats.activeLocations s' = (Stats.activeLocations s - 1)%Z /\
     Stats.inactiveLocations s' = (Stats.inactiveLocations s + 1)%Z) /\
  (forall e d, accepts_for t d = true ->
     let s' := value_of (get_stats (world_of (submitUpdate e d w))) in
     match locations w !! t with
     | None =>
         Stats.totalLocations s' = (Stats.totalLocations s + 1)%Z /\
         Stats.activeLocations s' = (Stats.activeLocations s + 1)%Z /\
         Stats.inactiveLocations s' = Stats.inactiveLocations s
     | Some r =>
         Stats.totalLocations s' = Stats.totalLocations s /\
         Stats.activeLocations s' =
           (Stats.activeLocations s + if Location.isActive r then 0 else 1)%Z /\
         Stats.inactiveLocations s' =
           (Stats.inactiveLocations s - if Location.isActive r then 0 else 1)%Z
     end).
Proof.
  intros s. subst s. split.
  - intros r Hne Hl Ha s'. subst s'.
    rewrite (post_deactivate_found w t r Hne Hl). cbn.
    pose proof (size_filter_active_insert (locations w) t (set_isActive false r)) as H.
    rewrite Hl, Ha in H. cbn in H.
    rewrite map_size_insert_Some by eauto. lia.
  - intros e d Hacc s'. subst s'.
    destruct (submitUpdate_stores w e d t Hacc) as (la & ln & _ & _ & Hl' & _).
    cbn. rewrite Hl'.
    pose proof (size_filter_active_insert (locations w) t (stored_location w t la ln d))
      as H. cbn in H. rewrite map_size_insert.
    destruct (locations w !! t) as [r|]; [destruct (Location.isActive r)|]; cbn; lia.
Qed.

(** ** Track id generation *)

Lemma post_track_generate_frame draws w :
  world_of (post_track_generate draws w) = w /\
  emitted (post_track_generate draws w) = [].
Proof.
  induction draws as [|draw draws IH]; [done|].
  cbn [post_track_generate]. unfold bind, Location_findOne, world_of, emitted in *.
  cbn. destruct (locations w !! ("TRK-" +:+ draw)); [exact IH|done].
Qed.

Lemma post_track_generate_value draws w :
  value_of (post_track_generate draws w) =
    head (List.filter (fun id => bool_decide (locations w !! id = None))
            (map (fun draw => "TRK-" +:+ draw) draws)).
Proof.
  induction draws as [|draw draws IH]; [done|].
  cbn [post_track_generate map List.filter].
  unfold bind, Location_findOne, value_of in *. cbn.
  destruct (locations w !! ("TRK-" +:+ draw)) eqn:Hl.
  - rewrite bool_decide_eq_false_2 by done. exact IH.
  - rewrite bool_decide_eq_true_2 by done. reflexivity.
Qed.

Lemma generate_answers_first_free_id_aux w draws id :
  value_of (post_track_generate draws w) = Some id ->
  locations w !! id = None /\ id <> "".
Proof.
  rewrite post_track_generate_value. intros H.
  apply head_Some_elem_of, elem_of_List_filter in H as [Hin Hf].
  apply bool_decide_eq_true in Hf. split; [assumption|].
  apply list_elem_of_fmap in Hin as (draw & -> & _). discriminate.
Qed.

(** X19. [POST /api/track/generate] answers the first drawn id, prefixed
    "TRK-", that has no Position Record: every draw before it is taken, the
    answered id is free and is a non-empty string, and an answer comes as
    soon as one draw is free.  The route reads the store but writes nothing
    and emits nothing. *)
Theorem generate_answers_first_free_id (w : World) (draws : list string) :
  let res := post_track_generate draws w in
  world_of res = w /\
  emitted res = [] /\
  (forall id, value_of res = Some id ->
     locations w !! id = None /\ id <> "" /\
     exists taken draw rest,
       draws = taken ++ draw :: rest /\ id = "TRK-" +:+ draw /\
       Forall (fun x => is_Some (locations w !! ("TRK-" +:+ x))) taken) /\
  (value_of res = None <->
     Forall (fun x => is_Some (locations w !! ("TRK-" +:+ x))) draws).
Proof.
  intros res. subst res.
  destruct (post_track_generate_frame draws w) as [Hw He].
  split; [exact Hw|]. split; [exact He|]. clear Hw He.
  induction draws as [|draw draws [IH1 IH2]].
  - split; [by intros id [=]|]. split; [constructor|reflexivity].
  - cbn [post_track_generate]. unfold bind, Location_findOne, value_of in *. cbn.
    destruct (locations w !! ("TRK-" +:+ draw)) as [loc|] eqn:Hl.
    + split.
      * intros id Hid. destruct (IH1 id Hid) as (Hfree & Hne & taken & dr & rest & -> & -> & Ht).
        split; [assumption|]. split; [assumption|].
        exists (draw :: taken), dr, rest. split; [reflexivity|]. split; [reflexivity|].
        constructor; [by rewrite Hl|assumption].
      * rewrite IH2. split; [intros H; constructor; [by rewrite Hl|assumption]|].
        by intros [_ H]%Forall_cons.
    + split.
      * intros id [= <-]. split; [assumption|]. split; [discriminate|].
        exists [], draw, draws. split; [reflexivity|]. split; [reflexivity|constructor].
      * split; [discriminate|]. intros [[x Hx] _]%Forall_cons. rewrite Hl in Hx.
        discriminate.
Qed.

(** X20. Generation reserves nothing: asked again with the same draws it
    answers the same id, until an update registers that id; the generated
    id passes the update validation, and once a Position Record exists for
    it the same draws no longer yield it. *)
Theorem generated_id_is_free_until_used (w : World) (draws : list string) (id : string)
    (e : Entry) (la ln : Q)
    (Hgen : value_of (post_track_generate draws w) = Some id)
    (Hin : inside_range la ln) :
  value_of (post_track_generate draws (world_of (post_track_generate draws w))) = Some id /\
  accepts_for id (report id la ln) = true /\
  value_of (post_track_generate draws
              (world_of (submitUpdate e (report id la ln) w))) <> Some id.
Proof.
  destruct (post_track_generate_frame draws w) as [Hw _].
  split; [by rewrite Hw|].
  destruct (generate_answers_first_free_id_aux w draws id Hgen) as [Hfree Hne].
  assert (Hacc : accepts_for id (report id la ln) = true).
  { unfold accepts_for, accepts, report. cbn [UpdateData.trackId UpdateData.lat UpdateData.lng].
    rewrite (truthy_nonempty id Hne).
    apply invalid_coordinates_false in Hin. rewrite Hin.
    by rewrite bool_decide_eq_true_2. }
  split; [exact Hacc|].
  intros Hagain.
  apply (generate_answers_first_free_id_aux _ draws id) in Hagain as [Hfree' _].
  destruct (submitUpdate_stores w e (report id la ln) id Hacc)
    as (la' & ln' & _ & _ & Hl & _).
  rewrite Hl, lookup_insert_eq in Hfree'. discriminate.
Qed.

Lemma generated_id_is_free_until_used_witness :
  value_of (post_track_generate ["ABC"; "XYZ"]
              (world_of (submitUpdate ViaRest (report "TRK-XYZ" (1 # 1) (2 # 1))
                 (world_of (submitUpdate ViaRest report_abc (init clock_seconds))))))
    <> Some "TRK-XYZ".
Proof.
  apply (generated_id_is_free_until_used
           (world_of (submitUpdate ViaRest report_abc (init clock_seconds)))
           ["ABC"; "XYZ"] "TRK-XYZ" ViaRest (1 # 1) (2 # 1)).
  - vm_compute. reflexivity.
  - unfold inside_range. repeat split; discriminate.
Defined.

(** ** Invariants over every run of the server *)

Lemma submitUpdate_clock_reads w e d :
  clock (world_of (submitUpdate e d w)) = clock w /\
  reads w <= reads (world_of (submitUpdate e d w)).
Proof.
  destruct (accepts d) eqn:Ha.
  - destruct (accepts_accepts_for d Ha) as (t & Ht & _).
    destruct (submitUpdate_stores w e d t Ht) as (_ & _ & _ & _ & _ & _ & _ & _ & ->).
    rewrite (reads_submitUpdate w e d t Ht). split; [reflexivity|lia].
  - destruct (submitUpdate_rejected w e d Ha) as [-> _]. split; [reflexivity|lia].
Qed.

Lemma post_deactivate_cases w t :
  world_of (post_deactivate t w) = w \/
  exists r, t <> "" /\ locations w !! t = Some r /\
    world_of (post_deactivate t w) = with_locations (insert t (set_isActive false r)) w.
Proof.
  destruct (decide (t = "")) as [->|Hne];
    [left; by rewrite post_deactivate_not_found by auto|].
  destruct (locations w !! t) as [r|] eqn:Hl.
  - right. exists r. by rewrite (post_deactivate_found w t r Hne Hl).
  - left. by rewrite post_deactivate_not_found by auto.
Qed.

Lemma step_clock_reads w w' :
  step w w' -> clock w' = clock w /\ reads w <= reads w'.
Proof.
  destruct 1.
  - apply (submitUpdate_clock_reads w ViaRest d).
  - unfold get_location. destruct (String.eqb t ""); [cbn; split; [done|lia]|].
    unfold bind, Location_findOne. cbn.
    destruct (locations w !! t); cbn; split; (done || lia).
  - unfold get_path. destruct (String.eqb t ""); [cbn; split; [done|lia]|].
    unfold bind, PathHistory_findOne. cbn.
    destruct (pathHistories w !! t); cbn; split; (done || lia).
  - destruct (post_deactivate_cases w t) as [-> | (r & _ & _ & ->)];
      cbn; split; (done || lia).
  - rewrite post_cleanup_unfold. cbn. split; [done|lia].
  - rewrite cleanup_job_world, post_cleanup_unfold. cbn. split; [done|lia].
  - cbn. split; [done|lia].
  - cbn. split; [done|lia].
  - cbn. split; [done|lia].
  - cbn. split; [done|lia].
  - apply (submitUpdate_clock_reads w (ViaSocket c) d).
  - cbn. split; [done|lia].
Qed.

Lemma step_all_cases w w' :
  step_all w w' ->
  clock w' = clock w /\ reads w <= reads w' /\
  ((exists e d, w' = world_of (submitUpdate e d w)) \/
   (exists t, w' = world_of (post_deactivate t w)) \/
   w' = world_of (post_cleanup w) \/
   (locations w' = locations w /\ pathHistories w' = pathHistories w)).
Proof.
  destruct 1 as [w' Hs | draws |].
  - destruct (step_clock_reads w w' Hs) as [Hc Hr].
    split; [assumption|]. split; [assumption|]. by apply step_cases.
  - destruct (post_track_generate_frame draws w) as [-> _].
    split; [done|]. split; [lia|]. by do 3 right.
  - cbn. split; [done|]. split; [lia|]. by do 3 right.
Qed.

Lemma slice_last_nonempty (l : list Point.t) (p : Point.t) :
  slice (-1000) (l ++ [p]) <> [] /\ last (slice (-1000) (l ++ [p])) = Some p.
Proof.
  rewrite slice_last, length_app. cbn [length].
  rewrite drop_app_le by lia. split; [|apply last_snoc].
  intros H. by apply app_eq_nil in H as [_ ?].
Qed.

Lemma step_all_stores_ok w w' : step_all w w' -> stores_ok w -> stores_ok w'.
Proof.
  intros Hs [HL HP].
  destruct (step_all_cases w w' Hs)
    as (_ & _ & [(e & d & ->)|[(t & ->)|[->|[Hl Hp]]]]).
  - destruct (accepts d) eqn:Ha;
      [|by destruct (submitUpdate_rejected w e d Ha) as [-> _]].
    destruct (accepts_accepts_for d Ha) as (t & Ht & Hne).
    destruct (accepts_for_inv t d Ht) as (la' & ln' & _ & Hla' & Hln' & Hv).
    destruct (submitUpdate_stores w e d t Ht) as (la & ln & Hla & Hln & Hl' & Hp' & _).
    rewrite Hla in Hla'. rewrite Hln in Hln'. injection Hla' as <-. injection Hln' as <-.
    apply invalid_coordinates_false in Hv. unfold stores_ok. rewrite Hl', Hp'. split.
    + intros t' loc. rewrite lookup_insert_Some. intros [[<- <-]|[_ H]]; [|by apply HL].
      split; [reflexivity|]. split; [assumption|exact Hv].
    + intros t' ph. rewrite lookup_insert_Some. intros [[<- <-]|[_ H]]; [|by apply HP].
      unfold path_ok, stored_trail. cbn [PathHistory.trackId PathHistory.points].
      split; [reflexivity|]. split; [assumption|].
      split; [apply slice_last_nonempty|]. split; [apply length_slice_last|].
      rewrite slice_last. apply Forall_drop, Forall_app.
      split; [|constructor; [exact Hv|constructor]].
      unfold trail. destruct (pathHistories w !! t) as [old|] eqn:Hold; [|constructor].
      by destruct (HP t old Hold) as (_ & _ & _ & _ & ?).
  - destruct (post_deactivate_cases w t) as [-> | (r & Hne & Hr & ->)]; [by split|].
    split; [|exact HP]. intros t' loc. cbn. rewrite lookup_insert_Some.
    intros [[<- <-]|[_ H]]; [|by apply HL].
    destruct (HL t r Hr) as (H1 & H2 & H3).
    split; [exact H1|]. split; [exact H2|exact H3].
  - split.
    + intros t loc. rewrite post_cleanup_lookup_location.
      destruct (locations w !! t) as [l|] eqn:E; [|done].
      case_decide; [done|]. intros [= <-]. by apply HL.
    + intros t ph. rewrite post_cleanup_lookup_path.
      destruct (pathHistories w !! t) as [l|] eqn:E; [|done].
      case_decide; [done|]. intros [= <-]. by apply HP.
  - split; [intros t loc; rewrite Hl; apply HL | intros t ph; rewrite Hp; apply HP].
Qed.

(** X21. In every state the server can reach through requests of the
    modelled types, whatever routes and events led to it, each Position
    Record sits under its own non-empty track id,
    and each Trail Record sits under its own non-empty track id and holds at
    least 1 and at most 1000 points: no trail is ever stored empty or over
    the cap. *)
Theorem stores_stay_well_formed (clk : nat -> Z) (w : World)
    (Hrun : rtc step_all (init clk) w) :
  (forall t loc, locations w !! t = Some loc ->
     Location.trackId loc = t /\ t <> "") /\
  (forall t ph, pathHistories w !! t = Some ph ->
     PathHistory.trackId ph = t /\ t <> "" /\
     1 <= length (PathHistory.points ph) <= 1000).
Proof.
  assert (H : stores_ok w).
  { revert w Hrun. apply rtc_ind_r.
    - split; intros t x; cbn; by rewrite lookup_empty.
    - intros y z _ Hs IH. by apply (step_all_stores_ok y z). }
  destruct H as [HL HP]. split.
  - intros t loc Hl. destruct (HL t loc Hl) as (H1 & H2 & _). by split.
  - intros t ph Hph. destruct (HP t ph Hph) as (H1 & H2 & H3 & H4 & _).
    split; [exact H1|]. split; [exact H2|].
    destruct (PathHistory.points ph); [contradiction|cbn in *; lia].
Qed.

Lemma world_busy_run : rtc step_all (init clock_seconds) world_busy.
Proof.
  unfold world_busy.
  eapply rtc_l; [apply step_all_step, (step_rest_update _ report_x)|].
  eapply rtc_l; [apply step_all_step, (step_connection _ 1)|].
  eapply rtc_l; [apply step_all_step, (step_socket_update _ 1 report_abc); by vm_compute|].
  eapply rtc_l; [apply step_all_step, (step_deactivate _ "X")|].
  eapply rtc_l; [apply step_all_stats|].
  eapply rtc_l; [apply step_all_step, step_cleanup|].
  apply rtc_refl.
Qed.

Lemma stores_stay_well_formed_witness :
  let ph := PathHistory.mk "TRK-ABC" [Point.mk (377 # 10) (- (1224 # 10)) 6000] 7000 in
  pathHistories world_busy !! "TRK-ABC" = Some ph /\
  1 <= length (PathHistory.points ph) <= 1000.
Proof.
  intros ph.
  assert (Hph : pathHistories world_busy !! "TRK-ABC" = Some ph)
    by (vm_compute; reflexivity).
  split; [exact Hph|].
  destruct (stores_stay_well_formed clock_seconds world_busy world_busy_run) as [_ H].
  by destruct (H "TRK-ABC" ph Hph) as (_ & _ & ?).
Defined.

Lemma stamped_mono w w' z :
  clock w' = clock w -> reads w <= reads w' -> stamped w z -> stamped w' z.
Proof.
  intros Hc Hr (i & Hi & ->). exists i. rewrite Hc. split; [lia|reflexivity].
Qed.

Lemma stamped_le w z j :
  monotone (clock w) -> stamped w z -> reads w <= j -> (z <= clock w j)%Z.
Proof. intros Hm (i & Hi & ->) Hj. apply Hm. lia. Qed.

Lemma path_timed_mono w w' ph :
  clock w' = clock w -> reads w <= reads w' -> path_timed w ph -> path_timed w' ph.
Proof.
  intros Hc Hr (H1 & H2 & H3). split; [exact H1|]. split.
  - eapply Forall_impl; [exact H2|]. intros p [Hp Hle]. split; [|exact Hle].
    by apply (stamped_mono w w').
  - by apply (stamped_mono w w').
Qed.

Lemma oldest_first_drop n l : oldest_first l -> oldest_first (drop n l).
Proof.
  unfold oldest_first. intros H. rewrite <- (take_drop n l) in H.
  by apply StronglySorted_app_1_r in H.
Qed.

Lemma oldest_first_filter (f : Point.t -> bool) l :
  oldest_first l -> oldest_first (List.filter f l).
Proof.
  unfold oldest_first. induction 1 as [|a l Hl IH Ha]; cbn; [constructor|].
  destruct (f a); [|exact IH]. constructor; [exact IH|].
  apply Forall_forall. intros x Hx. apply elem_of_List_filter in Hx as [Hx _].
  rewrite Forall_forall in Ha. by apply Ha.
Qed.

Lemma trail_timed w t :
  (forall ph, pathHistories w !! t = Some ph -> path_timed w ph) ->
  oldest_first (trail w t) /\
  Forall (fun p => stamped w (Point.timestamp p)) (trail w t).
Proof.
  intros H. unfold trail. destruct (pathHistories w !! t) as [ph|]; cbn.
  - destruct (H ph eq_refl) as (H1 & H2 & _). split; [exact H1|].
    eapply Forall_impl; [exact H2|]. by intros p [? _].
  - split; constructor.
Qed.

Lemma stored_trail_timed w w' t la ln k :
  monotone (clock w) -> clock w' = clock w -> reads w' = k + reads w -> 4 <= k ->
  (forall ph, pathHistories w !! t = Some ph -> path_timed w ph) ->
  path_timed w' (stored_trail w t la ln).
Proof.
  intros Hm Hc Hr Hk Hold. destruct (trail_timed w t Hold) as [Hs Hst].
  assert (Hp1 : stamped w' (clock w (S (reads w))))
    by (exists (S (reads w)); rewrite Hc; split; [lia|reflexivity]).
  assert (Hp2 : stamped w' (clock w (S (S (reads w)))))
    by (exists (S (S (reads w))); rewrite Hc; split; [lia|reflexivity]).
  unfold path_timed, stored_trail.
  cbn [PathHistory.points PathHistory.lastUpdated]. rewrite slice_last.
  split; [|split; [|exact Hp2]].
  - apply oldest_first_drop, StronglySorted_app_2; [|exact Hs|repeat constructor].
    intros x y Hx Hy. apply list_elem_of_singleton in Hy as ->. cbn.
    rewrite Forall_forall in Hst. apply (stamped_le w _ _ Hm (Hst x Hx)). lia.
  - apply Forall_drop, Forall_app. split.
    + eapply Forall_impl; [exact Hst|]. intros p Hp. split.
      * apply (stamped_mono w w'); [assumption|lia|assumption].
      * apply (stamped_le w _ _ Hm Hp). lia.
    + constructor; [|constructor]. cbn. split; [exact Hp1|]. apply Hm. lia.
Qed.

Lemma step_all_timed w w' :
  monotone (clock w) -> step_all w w' -> timed w -> timed w'.
Proof.
  intros Hm Hs [HP HL].
  destruct (step_all_cases w w' Hs)
    as (Hc & Hr & [(e & d & ->)|[(t & ->)|[->|[Hl Hp]]]]).
  - destruct (accepts d) eqn:Ha;
      [|by destruct (submitUpdate_rejected w e d Ha) as [-> _]].
    destruct (accepts_accepts_for d Ha) as (t & Ht & Hne).
    destruct (submitUpdate_stores w e d t Ht) as (la & ln & Hla & Hln & Hl' & Hp' & _).
    pose proof (reads_submitUpdate w e d t Ht) as Hk.
    set (w' := world_of (submitUpdate e d w)) in *.
    assert (Hk4 : exists k, reads w' = k + reads w /\ 4 <= k).
    { destruct e; eexists; (split; [exact Hk|lia]). }
    destruct Hk4 as (k & Hk' & Hk4). split.
    + intros t' ph. rewrite Hp', lookup_insert_Some.
      intros [[<- <-]|[_ H]].
      * apply (stored_trail_timed w w' t la ln k); [assumption..|exact (HP t)].
      * apply (path_timed_mono w w'); [assumption..|]. by apply (HP t').
    + intros t' loc. rewrite Hl', Hp', lookup_insert_Some.
      intros [[<- <-]|[Hne' H]].
      * split; [exists (reads w); rewrite Hc; split; [lia|reflexivity]|].
        exists (stored_trail w t la ln), (Point.mk la ln (clock w (S (reads w)))).
        split; [apply lookup_insert_eq|]. split; [apply slice_last_nonempty|].
        split; [by split|]. cbn. apply Hm. lia.
      * destruct (HL t' loc H) as (Hst & ph & p & Hph & Hlast & Hpt & Hle).
        split; [by apply (stamped_mono w w')|]. exists ph, p.
        by rewrite lookup_insert_ne.
  - destruct (post_deactivate_cases w t) as [-> | (r & Hne & Hr' & ->)]; [by split|].
    split; [exact HP|]. intros t' loc. cbn. rewrite lookup_insert_Some.
    intros [[<- <-]|[_ H]]; [|by apply HL]. exact (HL t r Hr').
  - split.
    + intros t ph. rewrite post_cleanup_lookup_path.
      destruct (pathHistories w !! t) as [old|] eqn:E; [|done].
      case_decide; [done|]. intros [= <-].
      apply (path_timed_mono w); [assumption..|]. by apply (HP t).
    + intros t loc. rewrite post_cleanup_lookup_location.
      destruct (locations w !! t) as [old|] eqn:E; [|done].
      case_decide as Hfresh; [done|]. intros [= <-].
      destruct (HL t old E) as (Hst & ph & p & Hph & Hlast & Hpt & Hle).
      split; [by apply (stamped_mono w _)|]. exists ph, p.
      split; [|split; [exact Hlast|split; [exact Hpt|exact Hle]]].
      rewrite post_cleanup_lookup_path, Hph.
      destruct (HP t ph Hph) as (_ & Hall & _). rewrite Forall_forall in Hall.
      destruct (Hall p (last_Some_elem_of _ _ Hlast)) as [_ Hlu].
      rewrite decide_False by lia. reflexivity.
  - split.
    + intros t ph. rewrite Hp. intros H. apply (path_timed_mono w); [assumption..|].
      by apply (HP t).
    + intros t loc. rewrite Hl, Hp. intros H.
      destruct (HL t loc H) as (Hst & Hrest).
      split; [by apply (stamped_mono w w')|exact Hrest].
Qed.

Lemma run_timed clk w :
  monotone clk -> rtc step_all (init clk) w -> clock w = clk /\ timed w.
Proof.
  intros Hm Hrun. revert w Hrun. apply rtc_ind_r.
  - split; [reflexivity|]. split; intros t x; cbn; by rewrite lookup_empty.
  - intros y z _ Hs [Hc IH]. destruct (step_all_cases y z Hs) as (Hc' & _).
    split; [congruence|]. apply (step_all_timed y z); [by rewrite Hc|assumption..].
Qed.

Lemma monotone_clock_seconds : monotone clock_seconds.
Proof. intros i j Hij. unfold clock_seconds. lia. Qed.

(** X22. When the clock does not run backwards, every trail is ordered by
    timestamp, oldest first, in every reachable state; no point is stamped
    later than the current clock value; and every answer of
    [GET /api/path/:trackId] is ordered the same way. *)
Theorem trail_is_ordered_by_time (clk : nat -> Z) (w : World)
    (Hmono : monotone clk) (Hrun : rtc step_all (init clk) w) :
  forall t,
    oldest_first (trail w t) /\
    Forall (fun p => (Point.timestamp p <= clock w (reads w))%Z) (trail w t) /\
    forall hours pts,
      value_of (get_path t hours w) = mkResponse 200 (BPoints pts) ->
      oldest_first pts.
Proof.
  intros t. destruct (run_timed clk w Hmono Hrun) as [Hc [HP _]].
  destruct (trail_timed w t (HP t)) as [Hs Hst]. rewrite <- Hc in Hmono.
  split; [exact Hs|]. split.
  - eapply Forall_impl; [exact Hst|]. intros p Hp.
    by apply (stamped_le w _ _ Hmono Hp).
  - intros hours pts. unfold get_path.
    destruct (String.eqb t ""); [discriminate|].
    unfold bind, PathHistory_findOne, value_of. cbn. unfold trail in Hs.
    destruct (pathHistories w !! t) as [ph|]; cbn; intros [= <-]; [|constructor].
    by apply oldest_first_filter.
Qed.

Lemma trail_is_ordered_by_time_witness :
  oldest_first (trail world_busy "TRK-ABC").
Proof.
  apply (trail_is_ordered_by_time clock_seconds world_busy
           monotone_clock_seconds world_busy_run "TRK-ABC").
Defined.



Lemma List_filter_none {A} (f : A -> bool) (l : list A) :
  Forall (fun x => f x = false) l -> List.filter f l = [].
Proof.
  induction 1 as [|a l Ha _ IH]; cbn; [reflexivity|]. by rewrite Ha.
Qed.

(** X24. When the clock does not run backwards, a trail read with
    [hours] zero or negative answers no point in any reachable state: the
    window would start at or after the present. *)
Theorem get_path_without_past_is_empty (clk : nat -> Z) (w : World) (t : string)
    (n : Z) (Hmono : monotone clk) (Hrun : rtc step_all (init clk) w)
    (Hne : t <> "") (Hn : (n <= 0)%Z) :
  value_of (get_path t (HoursInt n) w) = mkResponse 200 (BPoints []).
Proof.
  rewrite (get_path_value w t _ Hne). do 2 f_equal.
  destruct (run_timed clk w Hmono Hrun) as [Hc [HP _]].
  destruct (trail_timed w t (HP t)) as [_ Hst]. rewrite <- Hc in Hmono.
  apply List_filter_none. eapply Forall_impl; [exact Hst|]. intros p Hp.
  pose proof (stamped_le w _ (reads w) Hmono Hp ltac:(lia)) as Hle.
  unfold timeAgo, Date_of. cbn [hoursNum_of].
  destruct (Z.abs _ <=? _)%Z; [|reflexivity]. cbn. apply Z.ltb_ge. lia.
Qed.

Lemma get_path_without_past_is_empty_witness :
  value_of (get_path "TRK-ABC" (HoursInt 0) world_busy) = mkResponse 200 (BPoints []).
Proof.
  apply (get_path_without_past_is_empty clock_seconds world_busy "TRK-ABC" 0
           monotone_clock_seconds world_busy_run); [discriminate|lia].
Defined.

(** ** What a broadcast carries *)

(** X25. Every event emitted for an accepted update, by either entry point,
    carries the position just stored: the track id, [lat], [lng], [speed]
    and [accuracy] of the Position Record, with a timestamp read from the
    clock after the one of the record. *)
Theorem broadcast_carries_stored_position (w : World) (e : Entry) (d : UpdateData.t)
    (t : string) (Hacc : accepts_for t d = true) :
  let res := submitUpdate e d w in
  exists loc,
    locations (world_of res) !! t = Some loc /\
    emitted res <> [] /\
    Forall (fun x =>
      exists n,
        reads w < n /\
        payload x = PLocation t (Location.lat loc) (Location.lng loc)
                      (Location.speed loc) (Location.accuracy loc) (clock w n))
      (emitted res) /\
    Location.timestamp loc = clock w (reads w).
Proof.
  intros res. subst res.
  destruct (accepts_for_inv t d Hacc) as (la & ln & Ht & Hla & Hln & Hv).
  exists (stored_location w t la ln d).
  destruct e as [|c]; unfold submitUpdate, bind.
  - rewrite (post_location_update_accepted w d t la ln Ht Hla Hln Hv).
    unfold world_of, emitted. cbn [fst snd locations ret app].
    split; [apply lookup_insert_eq|]. split; [discriminate|]. split; [|reflexivity].
    repeat constructor.
    + exists (3 + reads w). split; [lia|reflexivity].
    + exists (4 + reads w). split; [lia|reflexivity].
  - rewrite (on_location_update_accepted w c d t la ln Ht Hla Hln Hv).
    unfold world_of, emitted. cbn [fst snd locations].
    split; [apply lookup_insert_eq|]. split; [discriminate|]. split; [|reflexivity].
    repeat constructor; (exists (3 + reads w); split; [lia|reflexivity]).
Qed.

Lemma broadcast_carries_stored_position_witness :
  emitted (submitUpdate (ViaSocket 2) report_x world_subscribed) <> [].
Proof.
  destruct (broadcast_carries_stored_position world_subscribed (ViaSocket 2)
              report_x "X") as (loc & _ & H & _); [reflexivity|exact H].
Defined.

(** ** Deactivation and cleanup *)

(** X26. Cleanup goes by age alone, not by [isActive]: deactivating a track
    first changes neither which Position Records survive the cleanup nor
    the Trail store it leaves, and a surviving deactivated record is still
    there, inactive. *)
Theorem cleanup_ignores_isActive (w : World) (t t' : string) :
  let wd := world_of (post_deactivate t w) in
  (is_Some (locations (world_of (post_cleanup wd)) !! t') <->
   is_Some (locations (world_of (post_cleanup w)) !! t')) /\
  pathHistories (world_of (post_cleanup wd)) = pathHistories (world_of (post_cleanup w)) /\
  forall r, t <> "" -> locations w !! t = Some r ->
    (cutoff w <= Location.timestamp r)%Z ->
    locations (world_of (post_cleanup wd)) !! t = Some (set_isActive false r).
Proof.
  intros wd. subst wd. split; [|split].
  - destruct (post_deactivate_cases w t) as [-> | (r & Hne & Hr & ->)]; [reflexivity|].
    rewrite !post_cleanup_lookup_location. cbn [with_locations locations].
    change (cutoff (with_locations (insert t (set_isActive false r)) w)) with (cutoff w).
    destruct (decide (t = t')) as [<-|Hne'].
    + rewrite lookup_insert_eq, Hr. cbn [set_isActive Location.timestamp].
      by case_decide.
    + by rewrite lookup_insert_ne.
  - by destruct (post_deactivate_cases w t) as [-> | (r & Hne & Hr & ->)].
  - intros r Hne Hl Hfresh.
    assert (Hwd : world_of (post_deactivate t w) =
                  with_locations (insert t (set_isActive false r)) w)
      by (by rewrite (post_deactivate_found w t r Hne Hl)).
    rewrite Hwd, post_cleanup_lookup_location.
    cbn [with_locations locations].
    change (cutoff (with_locations (insert t (set_isActive false r)) w)) with (cutoff w).
    rewrite lookup_insert_eq. cbn [set_isActive Location.timestamp].
    by rewrite decide_False by lia.
Qed.

Lemma cleanup_ignores_isActive_witness :
  let w := world_of (post_location_update report_abc (init clock_seconds)) in
  locations (world_of (post_cleanup (world_of (post_deactivate "TRK-ABC" w))))
    !! "TRK-ABC" =
  Some (Location.mk "TRK-ABC" (377 # 10) (- (1224 # 10)) 0 0 0 false).
Proof.
  intros w.
  destruct (cleanup_ignores_isActive w "TRK-ABC" "TRK-ABC") as (_ & _ & H).
  apply (H (Location.mk "TRK-ABC" (377 # 10) (- (1224 # 10)) 0 0 0 true)).
  - discriminate.
  - vm_compute. reflexivity.
  - vm_compute. discriminate.
Defined.

(** ** The save hook *)

